(** * parseit: a regex-driven tokenizer and a parser-combinator engine

    Shallow embedding of [parseit.py] and the properties established about it.

    Conventions of the embedding.
    - A Python [str] is a [string]; its characters are the 8-bit characters of
      [ascii], each taken with its code, so the development covers source
      text whose characters have a code below 256.
    - A Python [int] is a [Z].
    - [None] is the constructor [VNone] of [value]; a raised exception is the
      [Raise] outcome, kept apart from every returned value.
    - Parser objects live in a store indexed by object identity ([pid]); a
      parser refers to its children by identity, as the Python objects do, so
      a grammar may be cyclic through [Proxy].
    - Loops that need not terminate (and the mutual recursion of parsers) are
      bounded by a fuel argument; running out of fuel is the [None] of the
      outer [option] and is never confused with a result. *)

From Stdlib Require Import ZArith Ascii String Bool Lia.
From stdpp Require Import gmap strings list sorting.

Local Open Scope Z_scope.

(** ** Strings: the [str] methods used by [Token.__init__] *)

Module PyStr.

Definition newline : ascii := "010"%char.

Definition chars (s : string) : list ascii := list_ascii_of_string s.
Definition of_chars (l : list ascii) : string := string_of_list_ascii l.

Definition len (s : string) : Z := Z.of_nat (length (chars s)).

(** How a slice bound is read: a negative bound counts from the end, and
    the result is clamped to [0 .. n]. *)
Definition slice_index (n i : Z) : Z :=
  if i <? 0 then Z.max 0 (n + i) else Z.min i n.

(** The characters of [s[a:b]]. *)
Definition window (s : string) (a b : Z) : list ascii :=
  let n := len s in
  let a' := slice_index n a in
  let b' := slice_index n b in
  take (Z.to_nat (b' - a')) (drop (Z.to_nat a') (chars s)).

(** [s[a:b]] *)
Definition slice (s : string) (a b : Z) : string := of_chars (window s a b).

(** Lowest index of [c] in [l], whose first element has index [i]; [-1] when
    absent. *)
Fixpoint find_in (c : ascii) (l : list ascii) (i : Z) : Z :=
  match l with
  | [] => -1
  | x :: l' => if Ascii.eqb x c then i else find_in c l' (i + 1)
  end.

(** Highest index of [c] in [l], whose first element has index [i]; [-1]
    when absent. *)
Fixpoint rfind_in (c : ascii) (l : list ascii) (i : Z) : Z :=
  match l with
  | [] => -1
  | x :: l' =>
      let r := rfind_in c l' (i + 1) in
      if r =? -1 then (if Ascii.eqb x c then i else -1) else r
  end.

Fixpoint count_in (c : ascii) (l : list ascii) : Z :=
  match l with
  | [] => 0
  | x :: l' => (if Ascii.eqb x c then 1 else 0) + count_in c l'
  end.

(** [s.find(c, a)] for a one-character [c] *)
Definition find (s : string) (c : ascii) (a : Z) : Z :=
  let n := len s in
  find_in c (window s a n) (slice_index n a).

(** [s.rfind(c, a, b)] for a one-character [c] *)
Definition rfind (s : string) (c : ascii) (a b : Z) : Z :=
  rfind_in c (window s a b) (slice_index (len s) a).

(** [s.count(c, a, b)] for a one-character [c] *)
Definition count (s : string) (c : ascii) (a b : Z) : Z :=
  count_in c (window s a b).

End PyStr.

(** ** Token *)

(** The attributes set by [Token.__init__].  The attribute [string] is
    spelled [source] and [end] is spelled [end_], the Python names being
    reserved here. *)
Record Token : Type := mkToken {
  token : string;
  source : string;
  start : Z;
  end_ : Z;
  line : string;
  line_number : Z;
  column_number : Z
}.

Definition Token___init__ (token string_ : string) (start end_ : Z) : Token :=
  let a := PyStr.rfind string_ PyStr.newline 0 start + 1 in
  let b := PyStr.find string_ PyStr.newline end_ in
  let b := if b =? 0 then PyStr.len string_ else b in
  {| token := token;
     source := string_;
     start := start;
     end_ := end_;
     line := PyStr.slice string_ a b;
     line_number := PyStr.count string_ PyStr.newline 0 start;
     column_number := start - a + 1 |}.

(** ** Exceptions and outcomes *)

Inductive exn : Type :=
| IndexError
| TypeError
| NameError
| AttributeError
| ParseException (token : Token) (message : string)
| UserError (tag : string).

Inductive outcome (A : Type) : Type :=
| Ret (a : A)
| Raise (e : exn).
Arguments Ret {A} a.
Arguments Raise {A} e.

Definition obind {A B} (o : outcome A) (k : A → outcome B) : outcome B :=
  match o with
  | Ret a => k a
  | Raise e => Raise e
  end.

(** A call [Token(...)] as the interpreter performs it: the positional
    arguments are bound to the four parameters of [__init__]; any other
    number of arguments is a [TypeError], and so is a [str] method applied
    with an argument of the wrong type. *)
Inductive pyarg : Type :=
| PStr (s : string)
| PInt (z : Z).

Definition Token_call (args : list pyarg) : outcome Token :=
  match args with
  | [PStr token; PStr string_; PInt start; PInt end_] =>
      Ret (Token___init__ token string_ start end_)
  | _ => Raise TypeError
  end.

(** ** TokenStream *)

Record TokenStream : Type := mkStream {
  token_list : list Token;
  position : Z
}.

(** [l[i]] on a Python list: negative indices count from the end, anything
    outside the list is an [IndexError]. *)
Definition py_getitem {A} (l : list A) (i : Z) : outcome A :=
  let n := Z.of_nat (length l) in
  let j := if i <? 0 then i + n else i in
  if (0 <=? j) && (j <? n) then
    match l !! Z.to_nat j with
    | Some x => Ret x
    | None => Raise IndexError
    end
  else Raise IndexError.

Module Stream.

Definition peek (self : TokenStream) : outcome Token :=
  py_getitem (token_list self)
    (Z.min (position self) (Z.of_nat (length (token_list self)) - 1)).

Definition save (self : TokenStream) : Z := position self.

Definition load (self : TokenStream) (position : Z) : TokenStream :=
  {| token_list := token_list self; position := position |}.

(** [__next__]: the cursor is advanced first, then the list is indexed. *)
Definition __next__ (self : TokenStream) : outcome Token * TokenStream :=
  let self' := load self (position self + 1) in
  (py_getitem (token_list self') (position self' - 1), self').

Definition next (self : TokenStream) : outcome Token * TokenStream :=
  __next__ self.

End Stream.

(** ** Regular expressions: the fragment of [re] that the lexer uses

    Patterns are matched the way [re] does it, by backtracking: alternatives
    are tried from left to right, repetition is greedy and gives characters
    back one at a time, and a negative lookahead consumes nothing.  The
    continuation [k] is the rest of the pattern. *)

Module Re.

Inductive regex : Type :=
| Eps
| Cls (p : ascii → bool)
| Lit (s : string)
| Seq (r1 r2 : regex)
| Alt (r1 r2 : regex)
| Star (r : regex)
| NotAhead (r : regex).

Definition Plus (r : regex) : regex := Seq r (Star r).

Fixpoint strip (s : list ascii) (inp : list ascii) : option (list ascii) :=
  match s with
  | [] => Some inp
  | c :: s' =>
      match inp with
      | x :: inp' => if Ascii.eqb x c then strip s' inp' else None
      | [] => None
      end
  end.

(** Greedy repetition of [body]: one more iteration first, the rest of the
    pattern when that fails.  [m] bounds the number of iterations; every
    iteration must consume a character. *)
Fixpoint star_loop
    (body : list ascii → (list ascii → option (list ascii)) → option (list ascii))
    (m : nat) (inp : list ascii) (k : list ascii → option (list ascii))
    : option (list ascii) :=
  match m with
  | O => k inp
  | S m' =>
      match body inp (λ inp', if Nat.ltb (length inp') (length inp)
                              then star_loop body m' inp' k else None) with
      | Some rest => Some rest
      | None => k inp
      end
  end.

(** [run r n inp k]: match [r] at the head of [inp], then [k] on what is
    left.  [n] is the bound given to each [Star]; [n = length inp] is
    enough, an iteration consuming at least one character. *)
Fixpoint run (r : regex) (n : nat) (inp : list ascii)
    (k : list ascii → option (list ascii)) {struct r} : option (list ascii) :=
  match r with
  | Eps => k inp
  | Cls p =>
      match inp with
      | c :: inp' => if p c then k inp' else None
      | [] => None
      end
  | Lit s =>
      match strip (PyStr.chars s) inp with
      | Some inp' => k inp'
      | None => None
      end
  | Seq r1 r2 => run r1 n inp (λ inp', run r2 n inp' k)
  | Alt r1 r2 =>
      match run r1 n inp k with
      | Some rest => Some rest
      | None => run r2 n inp k
      end
  | Star r' => star_loop (run r' n) n inp k
  | NotAhead r' =>
      match run r' n inp Some with
      | Some _ => None
      | None => k inp
      end
  end.

(** A match object: [m.start()], [m.end()] and [m.group()]. *)
Record Match : Type := mkMatch { m_start : Z; m_end : Z; m_group : string }.

(** [regex.match(string, i)] *)
Definition match_ (r : regex) (s : string) (i : Z) : option Match :=
  let n := PyStr.len s in
  let i := Z.max 0 (Z.min i n) in
  let inp := drop (Z.to_nat i) (PyStr.chars s) in
  match run r (length inp) inp Some with
  | Some rest =>
      let e := n - Z.of_nat (length rest) in
      Some {| m_start := i; m_end := e; m_group := PyStr.slice s i e |}
  | None => None
  end.

(** ['|'.join(...)] of patterns: the join of no pattern at all is the
    empty pattern. *)
Fixpoint join_alt (rs : list regex) : regex :=
  match rs with
  | [] => Eps
  | [r] => r
  | r :: rs' => Alt r (join_alt rs')
  end.

Fixpoint join_seq (rs : list regex) : regex :=
  match rs with
  | [] => Eps
  | r :: rs' => Seq r (join_seq rs')
  end.

(** Character classes, as [re] reads them in a [str] pattern.  A character
    is taken with its code, from 0 to 255. *)
Definition code (c : ascii) : N := N_of_ascii c.

Definition between (a b : N) (c : ascii) : bool :=
  (a <=? code c)%N && (code c <=? b)%N.

(** [\d]: the decimal digits. *)
Definition digit (c : ascii) : bool :=
  (48 <=? code c)%N && (code c <=? 57)%N.

(** [\w]: the underscore and every character for which [isalnum()] holds:
    the digits and letters of ASCII and, above code 127, the letters
    (170, 181, 186, 192 to 214, 216 to 246, 248 to 255), the superscript
    digits (178, 179, 185) and the fractions (188 to 190). *)
Definition word (c : ascii) : bool :=
  digit c
  || ((65 <=? code c)%N && (code c <=? 90)%N)
  || ((97 <=? code c)%N && (code c <=? 122)%N)
  || (code c =? 95)%N
  || (code c =? 170)%N || between 178 179 c || (code c =? 181)%N
  || between 185 186 c || between 188 190 c
  || between 192 214 c || between 216 246 c || between 248 255 c.

(** [\s]: the white space of ASCII (9 to 13, 28 to 32), the next-line
    character (133) and the no-break space (160). *)
Definition space (c : ascii) : bool :=
  ((9 <=? code c)%N && (code c <=? 13)%N)
  || ((28 <=? code c)%N && (code c <=? 32)%N)
  || (code c =? 133)%N || (code c =? 160)%N.

(** The characters that [re] reads as operators when they stand in a
    pattern: the dot, the caret, the dollar sign, the star, the plus sign,
    the question mark, the braces, the brackets, the backslash, the bar and
    the parentheses.  Every other character stands for itself. *)
Definition special (c : ascii) : bool :=
  existsb (N.eqb (code c))
    [36; 40; 41; 42; 43; 46; 63; 91; 92; 93; 94; 123; 124; 125]%N.

Definition is_char (c : ascii) (x : ascii) : bool := Ascii.eqb x c.
Definition not_char (c : ascii) (x : ascii) : bool := negb (Ascii.eqb x c).

End Re.

(** ** Lexer *)

Definition dquote : ascii := "034"%char.
Definition squote : ascii := "039"%char.
Definition backslash : ascii := "092"%char.
Definition str1 (c : ascii) : string := String c EmptyString.

Module Lexer.
Import Re.

(** Any run of white space and of comments, a comment going from a hash
    sign to the end of its line. *)
Definition ignore_regex : regex :=
  Star (Alt (Plus (Cls space))
            (Seq (Lit "#") (Star (Cls (not_char PyStr.newline))))).

(** One or more characters that are not white space. *)
Definition err_regex : regex := Plus (Cls (λ c, negb (space c))).

(** One or more digits, then a lookahead that refuses a dot. *)
Definition int_regex : regex := Seq (Plus (Cls digit)) (NotAhead (Lit ".")).

(** One or more digits, a dot, any number of digits. *)
Definition float_regex : regex :=
  Seq (Plus (Cls digit)) (Seq (Lit ".") (Star (Cls digit))).

(** A keyword is pasted into the patterns as it is, not escaped.  A
    [plain] keyword, one that holds no operator character, stands there for
    its own text; the two patterns below are those of plain keywords, and
    the properties of the keyword pattern are stated for plain keywords. *)
Definition plain (keyword : string) : bool :=
  forallb (λ c, negb (special c)) (PyStr.chars keyword).

(** Each keyword followed by a lookahead that refuses a word character,
    joined by [|]. *)
Definition keyword_regex (keywords : list string) : regex :=
  join_alt ((λ keyword, Seq (Lit keyword) (NotAhead (Cls word))) <$> keywords).

(** A lookahead refusing each keyword taken as a whole word, a lookahead
    refusing a raw-string prefix or a digit, then one or more word
    characters. *)
Definition name_regex (keywords : list string) : regex :=
  Seq (join_seq ((λ keyword, NotAhead (Seq (Lit keyword) (NotAhead (Cls word))))
                   <$> keywords))
      (Seq (NotAhead (Alt (Lit ("r" +:+ str1 dquote))
                       (Alt (Lit ("r" +:+ str1 squote)) (Cls digit))))
           (Plus (Cls word))).

(** The four forms of a string literal, joined by [|]. *)
Definition quoted (q : ascii) : regex :=
  Seq (Lit (str1 q))
      (Seq (Star (Alt (Cls (not_char q)) (Lit (str1 backslash +:+ str1 q))))
           (Lit (str1 q))).

Definition raw_quoted (q : ascii) : regex :=
  Seq (Lit ("r" +:+ str1 q)) (Seq (Star (Cls (not_char q))) (Lit (str1 q))).

Definition str_regex : regex :=
  join_alt [quoted dquote; quoted squote; raw_quoted dquote; raw_quoted squote].

(** [reversed(sorted(symbols))] *)
Definition symbol_order (symbols : list string) : list string :=
  reverse (merge_sort String.le symbols).

(** [re.escape(symbol)] for each symbol in that order, joined by [|]. *)
Definition symbol_regex (symbols : list string) : regex :=
  join_alt (Lit <$> symbol_order symbols).

(** The state of a [Lexer] object.  [keywords] and [symbols] are the
    elements of the two sets in the order in which the set yields them;
    [token_types] is the dictionary, in insertion order. *)
Record t : Type := mk {
  keywords : list string;
  symbols : list string;
  token_types : list (string * regex)
}.

Definition __init__ (keywords symbols : list string) : t :=
  {| keywords := keywords;
     symbols := symbols;
     token_types :=
       [ ("int", int_regex);
         ("float", float_regex);
         ("keyword", keyword_regex keywords);
         ("name", name_regex keywords);
         ("str", str_regex);
         ("symbol", symbol_regex symbols) ] |}.

End Lexer.

Module LexerRun.
Import Re Lexer.

(** The module-level names of parseit.py that are bound to a table of
    patterns.  The table built by [__init__] is stored in the attribute
    [self.token_types] and nowhere else: no module-level name holds one. *)
Definition module_tables : gmap string (list (string * regex)) := ∅.

(** Reading a bare name that is not a local of the running function. *)
Definition load_global (name : string) : outcome (list (string * regex)) :=
  match module_tables !! name with
  | Some table => Ret table
  | None => Raise NameError
  end.

(** The [for ... else] of [_lex]: the first class, in the order of the
    table, whose pattern matches at [i].  A match object is always true. *)
Fixpoint first_match (table : list (string * regex)) (string_ : string) (i : Z)
    : option (string * Match) :=
  match table with
  | [] => None
  | (type_, regex) :: table' =>
      match match_ regex string_ i with
      | Some m => Some (type_, m)
      | None => first_match table' string_ i
      end
  end.

(** [_lex], run to exhaustion as [list(...)] does in [TokenStream.__init__]:
    [yielded] collects the tokens produced so far, and an exception raised
    inside the generator is the outcome of the whole run. *)
Fixpoint _lex (fuel : nat) (self : Lexer.t) (string_ : string) (i : Z)
    (yielded : list Token) : option (outcome (list Token)) :=
  match fuel with
  | O => None
  | S fuel' =>
      match match_ ignore_regex string_ i with
      | None => Some (Raise AttributeError)
      | Some m =>
          let i := m_end m in
          if PyStr.len string_ <=? i then
            Some (obind
                    (Token_call [PStr "eof"; PStr string_; PStr "";
                                 PInt (PyStr.len string_); PInt (PyStr.len string_)])
                    (λ t, Ret (yielded ++ [t])))
          else
            match load_global "token_types" with
            | Raise e => Some (Raise e)
            | Ret token_types =>
                match first_match token_types string_ i with
                | Some (type_, m) =>
                    let i := m_end m in
                    match Token_call [PStr type_; PStr string_; PStr (m_group m);
                                      PInt (m_start m); PInt i] with
                    | Ret t => _lex fuel' self string_ i (yielded ++ [t])
                    | Raise e => Some (Raise e)
                    end
                | None =>
                    match match_ err_regex string_ i with
                    | None => Some (Raise AttributeError)
                    | Some m =>
                        Some (obind
                                (Token_call [PStr "err"; PStr string_; PStr (m_group m);
                                             PInt (m_start m); PInt (m_end m)])
                                (λ t, Raise (ParseException t "unrecognized token")))
                    end
                end
            end
      end
  end.

(** [Lexer.__call__]: [TokenStream(self._lex(string))] *)
Definition __call__ (fuel : nat) (self : Lexer.t) (string_ : string)
    : option (outcome TokenStream) :=
  match _lex fuel self string_ 0 [] with
  | None => None
  | Some o => Some (obind o (λ tokens, Ret {| token_list := tokens; position := 0 |}))
  end.

End LexerRun.

(** ** Parser objects *)

#[local] Set Warnings "-register-all".

(** Results of parsers: [None], a token, a list of results, or whatever an
    action builds. *)
Inductive value : Type :=
| VNone
| VToken (t : Token)
| VList (l : list value)
| VStr (s : string)
| VInt (z : Z).

Definition is_None (v : value) : bool :=
  match v with
  | VNone => true
  | _ => false
  end.

(** Identity of a parser object. *)
Definition pid : Type := nat.

(** One constructor per concrete class, carrying the attributes set by its
    [__init__].  [Symbol] and [Keyword] are the two subclasses of
    [TokenMatching] that grammar introspection tells apart. *)
Inductive parser : Type :=
| TokenSatisfying (condition : Token → outcome bool)
| Symbol (symbol : string)
| Keyword (keyword : string)
| Action (p : pid) (action : value → outcome value)
| Proxy (p : option pid)
| Or (children : list pid)
| And (children : list pid)
| Repeat (p : pid) (at_least : Z) (at_most : option Z).

(** [lambda t : t.token == token] *)
Definition token_is (tok : string) (t : Token) : outcome bool :=
  Ret (String.eqb (token t) tok).

Definition TokenMatching (tok : string) : parser := TokenSatisfying (token_is tok).

(** [lambda t : t.type_ == type_]: a Token has no attribute [type_]. *)
Definition TokenOfType (type_ : string) : parser :=
  TokenSatisfying (λ _, Raise AttributeError).

Definition OnSuccess (p : pid) (action : value → outcome value) : parser :=
  Action p (λ result, if is_None result then Ret VNone else action result).

Definition OnFailure (p : pid) (action : value → outcome value) : parser :=
  Action p (λ result, if is_None result then action result else Ret result).

Definition ZeroOrMore (p : pid) : parser := Repeat p 0 None.
Definition OneOrMore (p : pid) : parser := Repeat p 1 None.
Definition AtMost (p : pid) (n : Z) : parser := Repeat p 0 (Some n).

(** The [children] attribute (a property for [Proxy]). *)
Definition children_of (node : parser) : list pid :=
  match node with
  | TokenSatisfying _ | Symbol _ | Keyword _ => []
  | Action p _ => [p]
  | Proxy (Some p) => [p]
  | Proxy None => []
  | Or children => children
  | And children => children
  | Repeat p _ _ => [p]
  end.

(** The condition a matcher was constructed with. *)
Definition condition_of (node : parser) : option (Token → outcome bool) :=
  match node with
  | TokenSatisfying condition => Some condition
  | Symbol symbol => Some (token_is symbol)
  | Keyword keyword => Some (token_is keyword)
  | _ => None
  end.

(** ** The parsing monad: a token stream threaded through, exceptions, and
    running out of fuel *)

Definition M (A : Type) : Type := TokenStream → option (outcome A * TokenStream).

Definition ret {A} (a : A) : M A := λ st, Some (Ret a, st).
Definition lift {A} (o : outcome A) : M A := λ st, Some (o, st).
Definition diverge {A} : M A := λ _, None.

Definition bind {A B} (m : M A) (k : A → M B) : M B :=
  λ st,
    match m st with
    | None => None
    | Some (Ret a, st') => k a st'
    | Some (Raise e, st') => Some (Raise e, st')
    end.

Notation "'let*' x ':=' m 'in' k" := (bind m (λ x, k))
  (at level 10, x name, m at level 100, k at level 200).

Definition peek : M Token := λ st, Some (Stream.peek st, st).
Definition next : M Token := λ st, Some (Stream.next st).
Definition save : M Z := λ st, Some (Ret (Stream.save st), st).
Definition load (position : Z) : M unit := λ st, Some (Ret tt, Stream.load st position).

(** ** The [_parse] methods and [Parser.__call__] *)

Module Parser.

(** [Parser.__call__], for a [stream] that is a [TokenStream]: [parse] is
    the [_parse] of the object. *)
Definition __call__ (parse : M value) : M value :=
  let* position := save in
  let* result := parse in
  if is_None result then
    let* _ := load position in ret result
  else ret result.

Definition TokenSatisfying__parse (condition : Token → outcome bool) : M value :=
  let* t := peek in
  let* b := lift (condition t) in
  if b then
    let* t' := next in ret (VToken t')
  else ret VNone.

(** In the loops below [call] is the invocation [parser(stream)] of a child,
    given by its identity. *)
Fixpoint Or__parse (call : pid → M value) (children : list pid) : M value :=
  match children with
  | [] => ret VNone
  | parser :: rest =>
      let* result := call parser in
      if is_None result then Or__parse call rest else ret result
  end.

Fixpoint And__loop (call : pid → M value) (children : list pid)
    (results : list value) : M value :=
  match children with
  | [] => ret (VList results)
  | parser :: rest =>
      let* result := call parser in
      if is_None result then ret VNone
      else And__loop call rest (results ++ [result])
  end.

Definition And__parse (call : pid → M value) (children : list pid) : M value :=
  And__loop call children [].

(** The [while] of [Repeat._parse].  When its condition turns false the
    method runs off its end and so returns [None]. *)
Definition Repeat__continue (at_most : option Z) (results : list value) : bool :=
  match at_most with
  | None => true
  | Some n => Z.of_nat (length results) <=? n
  end.

Fixpoint Repeat__loop (call : M value) (at_least : Z) (at_most : option Z)
    (fuel : nat) (results : list value) : M value :=
  if Repeat__continue at_most results then
    match fuel with
    | O => diverge
    | S fuel' =>
        let* result := call in
        if is_None result then
          ret (if at_least <=? Z.of_nat (length results) then VList results else VNone)
        else Repeat__loop call at_least at_most fuel' (results ++ [result])
    end
  else ret VNone.

(** The [for] of [Parser.descendants]; [descend] is the method
    [descendants] of whichever object it is given. *)
Fixpoint descendants_loop (descend : pid → gset pid → option (gset pid))
    (self : pid) (children : list pid) (seen : gset pid) : option (gset pid) :=
  match children with
  | [] => Some seen
  | parser :: rest =>
      match descend self seen with
      | Some seen' => descendants_loop descend self rest seen'
      | None => None
      end
  end.

Section Engine.

(** The parser objects that exist, by identity. *)
Variable store : gmap pid parser.

(** [self._parse(stream)], dispatched on the class of [self]. *)
Definition _parse (call : pid → M value) (fuel : nat) (self : pid) : M value :=
  match store !! self with
  | None => diverge
  | Some (TokenSatisfying condition) => TokenSatisfying__parse condition
  | Some (Symbol symbol) => TokenSatisfying__parse (token_is symbol)
  | Some (Keyword keyword) => TokenSatisfying__parse (token_is keyword)
  | Some (Action p action) => let* result := call p in lift (action result)
  | Some (Proxy (Some p)) => call p
  | Some (Proxy None) => lift (Raise TypeError)
  | Some (Or children) => Or__parse call children
  | Some (And children) => And__parse call children
  | Some (Repeat p at_least at_most) =>
      Repeat__loop (call p) at_least at_most fuel []
  end.

(** [self(stream)]: the public invocation.  [fuel] bounds the depth of
    nested invocations and the iterations of each repetition. *)
Fixpoint call (fuel : nat) (self : pid) : M value :=
  match fuel with
  | O => diverge
  | S fuel' => __call__ (_parse (call fuel') fuel' self)
  end.

(** [Parser.descendants].  The set [seen] is one object shared by all the
    nested calls, so it is threaded through them.  The loop over the
    children calls [self.descendants(seen)] at every turn: its variable
    [parser] is not used. *)
Fixpoint descendants (fuel : nat) (self : pid) (seen : gset pid)
    : option (gset pid) :=
  match fuel with
  | O => None
  | S fuel' =>
      if decide (self ∈ seen) then Some seen
      else
        match store !! self with
        | None => None
        | Some node =>
            descendants_loop (descendants fuel') self (children_of node)
              (seen ∪ {[self]})
        end
  end.

(** The first half of [parse_string]: the literals of the [Keyword] and
    [Symbol] objects among the descendants. *)
Definition keyword_of (p : pid) : option string :=
  match store !! p with
  | Some (Keyword keyword) => Some keyword
  | _ => None
  end.

Definition symbol_of (p : pid) : option string :=
  match store !! p with
  | Some (Symbol symbol) => Some symbol
  | _ => None
  end.

Definition literals (fuel : nat) (self : pid) : option (gset string * gset string) :=
  match descendants fuel self ∅ with
  | None => None
  | Some seen =>
      let keywords : gset string := list_to_set (omap keyword_of (elements seen)) in
      let symbols : gset string := list_to_set (omap symbol_of (elements seen)) in
      Some (keywords, symbols)
  end.

(** [parse_string] *)
Definition parse_string (fuel : nat) (self : pid) (string_ : string)
    : option (outcome value) :=
  match literals fuel self with
  | None => None
  | Some (keywords, symbols) =>
      let lexer := Lexer.__init__ (elements keywords) (elements symbols) in
      match LexerRun.__call__ fuel lexer string_ with
      | None => None
      | Some (Raise e) => Some (Raise e)
      | Some (Ret stream) =>
          match call fuel self stream with
          | None => None
          | Some (result, _) => Some result
          end
      end
  end.

End Engine.

End Parser.

(** * Definitions used to state the properties *)

(** A client that peeks [n] times in a row and collects what it reads. *)
Fixpoint peek_times (n : nat) : M (list Token) :=
  match n with
  | O => ret []
  | S n' =>
      let* t := peek in
      let* ts := peek_times n' in
      ret (t :: ts)
  end.


(** A token whose text is [text], found at offset [at_] of [string_]. *)
Definition token_at (string_ text : string) (at_ : Z) : Token :=
  Token___init__ text string_ at_ (at_ + PyStr.len text).

(** The end-of-input token that closes the token list of [string_]. *)
Definition eof_of (string_ : string) : Token :=
  Token___init__ "" string_ (PyStr.len string_) (PyStr.len string_).

(** The tokens of the text [a a], with the end-of-input token last. *)
Definition tokens_a_a : list Token :=
  [token_at "a a" "a" 0; token_at "a a" "a" 2; eof_of "a a"].

(** The tokens of the text [a c]. *)
Definition tokens_a_c : list Token :=
  [token_at "a c" "a" 0; token_at "a c" "c" 2; eof_of "a c"].

Definition two_lines : string := "ab" +:+ str1 PyStr.newline +:+ "cd".

(** A list of literals is in reverse lexicographic order when every literal
    is at most, character code by character code, any that comes before it. *)
Definition reverse_lexicographic (l : list string) : Prop :=
  ∀ (j k : nat) (a b : string),
    l !! j = Some a → l !! k = Some b → (j < k)%nat → String.le b a.

(** The literal [symbol] occurs in [string_] at offset [i]. *)
Definition occurs_at (symbol string_ : string) (i : Z) : Prop :=
  PyStr.chars symbol `prefix_of` drop (Z.to_nat i) (PyStr.chars string_).

(** A computation keeps the tokens when it leaves the list of tokens of the
    stream as it found it (the cursor may move). *)
Definition keeps_tokens {A} (m : M A) : Prop :=
  ∀ st o st', m st = Some (o, st') → token_list st' = token_list st.

(** A small grammar: the matchers of [a] and [b], their sequence, the
    bounded repetitions of [a], and an action that maps every result to
    [None]. *)
Definition sample_store : gmap pid parser :=
  list_to_map
    [ (0%nat, TokenMatching "a");
      (1%nat, TokenMatching "b");
      (2%nat, And [0%nat; 1%nat]);
      (3%nat, AtMost 0%nat 1);
      (4%nat, AtMost 0%nat 2);
      (5%nat, Action 0%nat (λ _, Ret VNone));
      (6%nat, Or [2%nat; 1%nat]) ].

(** The grammar [And(Keyword('if'), Symbol('('))]. *)
Definition if_store : gmap pid parser :=
  list_to_map
    [ (0%nat, And [1%nat; 2%nat]);
      (1%nat, Keyword "if");
      (2%nat, Symbol "(") ].

(** The children [children] succeed one after the other from [st], each
    starting where the one before stopped, with the results [results] and
    the final stream [st']. *)
Inductive in_sequence (call : pid → M value)
    : list pid → TokenStream → list value → TokenStream → Prop :=
| in_sequence_nil (st : TokenStream) : in_sequence call [] st [] st
| in_sequence_cons (p : pid) (rest : list pid) (st st1 st2 : TokenStream)
    (v : value) (vs : list value) :
    call p st = Some (Ret v, st1) →
    v ≠ VNone →
    in_sequence call rest st1 vs st2 →
    in_sequence call (p :: rest) st (v :: vs) st2.

(** The cursor is on a token of the list or just past the last one. *)
Definition in_bounds (st : TokenStream) : Prop :=
  0 ≤ position st ≤ Z.of_nat (length (token_list st)).

(** A computation never moves the cursor backwards, whatever its outcome. *)
Definition moves_forward {A} (m : M A) : Prop :=
  ∀ st o st', m st = Some (o, st') → position st ≤ position st'.

(** A computation started with the cursor in bounds, when it returns a
    value, returns with the cursor in bounds. *)
Definition stays_in_bounds {A} (m : M A) : Prop :=
  ∀ st a st', in_bounds st → m st = Some (Ret a, st') → in_bounds st'.
(** * Properties *)

(** ** Token stream *)

Lemma py_getitem_in_range {A} (l : list A) (i : Z) (x : A) :
  0 ≤ i → l !! Z.to_nat i = Some x → py_getitem l i = Ret x.
Proof.
  intros Hi Hx. unfold py_getitem.
  apply lookup_lt_Some in Hx as Hlt.
  destruct (i <? 0) eqn:Hneg; [lia|].
  destruct (0 <=? i) eqn:H0; [|lia].
  destruct (i <? Z.of_nat (length l)) eqn:Hn; [|lia].
  simpl. by rewrite Hx.
Qed.

Lemma py_getitem_past_end {A} (l : list A) (i : Z) :
  Z.of_nat (length l) ≤ i → py_getitem l i = Raise IndexError.
Proof.
  intros Hi. unfold py_getitem.
  destruct (i <? 0) eqn:Hneg; [lia|].
  destruct (i <? Z.of_nat (length l)) eqn:Hn; [lia|].
  by rewrite andb_false_r.
Qed.

Lemma peek_at_end (st : TokenStream) (sentinel : Token) :
  last (token_list st) = Some sentinel →
  Z.of_nat (length (token_list st)) - 1 ≤ position st →
  Stream.peek st = Ret sentinel.
Proof.
  intros Hlast Hpos. unfold Stream.peek.
  rewrite last_lookup in Hlast.
  apply lookup_lt_Some in Hlast as Hlen.
  rewrite Z.min_r by lia.
  apply py_getitem_in_range; [lia|].
  rewrite <- Hlast. f_equal. lia.
Qed.


Lemma peek_times_at_end (st : TokenStream) (sentinel : Token) (n : nat) :
  last (token_list st) = Some sentinel →
  Z.of_nat (length (token_list st)) - 1 ≤ position st →
  peek_times n st = Some (Ret (replicate n sentinel), st).
Proof.
  intros Hlast Hpos. induction n as [|n IH]; [done|].
  simpl. unfold bind at 1. unfold peek at 1.
  rewrite (peek_at_end st sentinel Hlast Hpos).
  unfold bind. by rewrite IH.
Qed.

(** C8.  On a stream whose last token is the end-of-input sentinel, with the
    cursor on that token or anywhere beyond it, [peek] returns the sentinel
    and raises nothing, it leaves the stream as it was, and so any number of
    peeks in a row all read the same sentinel. *)
Theorem peek_past_end_returns_sentinel (st : TokenStream) (sentinel : Token) (n : nat) :
  last (token_list st) = Some sentinel →
  Z.of_nat (length (token_list st)) - 1 ≤ position st →
  Stream.peek st = Ret sentinel
  ∧ peek st = Some (Ret sentinel, st)
  ∧ peek_times n st = Some (Ret (replicate n sentinel), st).
Proof.
  intros Hlast Hpos. split_and!.
  - by apply peek_at_end.
  - unfold peek. by rewrite (peek_at_end st sentinel Hlast Hpos).
  - by apply peek_times_at_end.
Qed.

Lemma peek_past_end_returns_sentinel_witness :
  let st := {| token_list := tokens_a_a; position := 7 |} in
  last (token_list st) = Some (eof_of "a a")
  ∧ Z.of_nat (length (token_list st)) - 1 ≤ position st
  ∧ Stream.peek st = Ret (eof_of "a a")
  ∧ peek st = Some (Ret (eof_of "a a"), st)
  ∧ peek_times 3 st = Some (Ret (replicate 3 (eof_of "a a")), st).
Proof.
  intros st.
  assert (Hlast : last (token_list st) = Some (eof_of "a a")) by reflexivity.
  assert (Hpos : Z.of_nat (length (token_list st)) - 1 ≤ position st)
    by (vm_compute; discriminate).
  split; [exact Hlast|]. split; [exact Hpos|].
  exact (peek_past_end_returns_sentinel st (eof_of "a a") 3 Hlast Hpos).
Defined.

(** C9.  [next] is not clamped: with the cursor at or past the number of
    stored tokens it raises [IndexError], and the cursor has been advanced by
    one all the same. *)
Theorem next_past_end_raises (st : TokenStream) :
  Z.of_nat (length (token_list st)) ≤ position st →
  Stream.next st = (Raise IndexError, Stream.load st (position st + 1)).
Proof.
  intros Hpos. unfold Stream.next, Stream.__next__. f_equal.
  apply py_getitem_past_end. simpl. lia.
Qed.

Lemma next_past_end_raises_witness :
  let st := {| token_list := tokens_a_a; position := 3 |} in
  Z.of_nat (length (token_list st)) ≤ position st
  ∧ Stream.next st = (Raise IndexError, Stream.load st 4)
  ∧ Stream.peek st = Ret (eof_of "a a").
Proof.
  intros st.
  assert (Hpos : Z.of_nat (length (token_list st)) ≤ position st)
    by (vm_compute; discriminate).
  split; [exact Hpos|]. split; [|reflexivity].
  exact (next_past_end_raises st Hpos).
Defined.

(** ** Token *)


Lemma window_prefix (s : string) (b : Z) :
  0 ≤ b ≤ PyStr.len s →
  PyStr.window s 0 b = take (Z.to_nat b) (PyStr.chars s).
Proof.
  intros Hb. unfold PyStr.window, PyStr.slice_index.
  destruct (0 <? 0) eqn:H0; [lia|].
  destruct (b <? 0) eqn:Hneg; [lia|].
  rewrite Z.min_l by lia. rewrite Z.min_l by lia.
  simpl. by rewrite Z.sub_0_r.
Qed.




(** ** Tokenizer *)

Lemma star_loop_total body (m : nat) (inp : list ascii) :
  is_Some (Re.star_loop body m inp Some).
Proof.
  destruct m as [|m]; simpl; [by eexists|].
  match goal with |- context [body inp ?k] => destruct (body inp k) end;
    by eexists.
Qed.

Lemma ignore_regex_matches (string_ : string) (i : Z) :
  is_Some (Re.match_ Lexer.ignore_regex string_ i).
Proof.
  unfold Re.match_, Lexer.ignore_regex. cbn [Re.run].
  match goal with |- context [Re.star_loop ?b ?m ?inp Some] =>
    destruct (star_loop_total b m inp) as [rest ->] end.
  by eexists.
Qed.

Lemma token_types_unbound : LexerRun.load_global "token_types" = Raise NameError.
Proof. unfold LexerRun.load_global, LexerRun.module_tables. by rewrite lookup_empty. Qed.

(** Whatever the input, one step of [_lex] ends in an exception: the
    end-of-input token is built with five arguments, and any other token is
    preceded by the lookup of the unbound name. *)
Lemma lex_raises (fuel : nat) (self : Lexer.t) (string_ : string) (i : Z)
    (yielded : list Token) :
  ∃ e, LexerRun._lex (S fuel) self string_ i yielded = Some (Raise e)
       ∧ (e = TypeError ∨ e = NameError).
Proof.
  destruct (ignore_regex_matches string_ i) as [m Hm].
  cbn [LexerRun._lex]. rewrite Hm.
  destruct (PyStr.len string_ <=? Re.m_end m).
  - exists TypeError. split; [reflexivity | by left].
  - rewrite token_types_unbound. exists NameError. split; [reflexivity | by right].
Qed.

(** C4.  The tokenizer emits no token at all: on every input, with any
    keyword and symbol sets, tokenizing ends in [TypeError] or [NameError]
    before the first token exists.  On the empty text it is the [TypeError] of
    the end-of-input token, on the text [x = 1] the [NameError] of line 85. *)
Theorem lexer_never_emits_a_token (keywords symbols : list string)
    (string_ : string) (fuel : nat) :
  (∃ e, LexerRun.__call__ (S fuel) (Lexer.__init__ keywords symbols) string_
        = Some (Raise e))
  ∧ LexerRun.__call__ 1 (Lexer.__init__ [] ["="]) "" = Some (Raise TypeError)
  ∧ LexerRun.__call__ 1 (Lexer.__init__ [] ["="]) "x = 1" = Some (Raise NameError).
Proof.
  split_and!.
  - unfold LexerRun.__call__.
    destruct (lex_raises fuel (Lexer.__init__ keywords symbols) string_ 0 [])
      as (e & -> & _).
    by exists e.
  - reflexivity.
  - vm_compute. reflexivity.
Qed.

(** C6.  The integer pattern does match where digits are followed by a
    decimal point: on [12.5] it gives back the digit 2 and matches the text
    [1], whose next character is not a dot.  Being first in the table, the
    integer class is the one selected at offset 0, and the float pattern is
    left to match [2.5] at offset 1. *)
Theorem int_pattern_matches_before_a_dot :
  Re.match_ Lexer.int_regex "12.5" 0
  = Some {| Re.m_start := 0; Re.m_end := 1; Re.m_group := "1" |}
  ∧ LexerRun.first_match (Lexer.token_types (Lexer.__init__ [] [])) "12.5" 0
    = Some ("int", {| Re.m_start := 0; Re.m_end := 1; Re.m_group := "1" |})
  ∧ LexerRun.first_match (Lexer.token_types (Lexer.__init__ [] [])) "12.5" 1
    = Some ("float", {| Re.m_start := 1; Re.m_end := 4; Re.m_group := "2.5" |})
  ∧ LexerRun.__call__ 1 (Lexer.__init__ [] []) "12.5" = Some (Raise NameError).
Proof. split_and!; vm_compute; reflexivity. Qed.

(** *** The symbol pattern *)

Lemma strip_spec (s inp rest : list ascii) :
  Re.strip s inp = Some rest ↔ inp = s ++ rest.
Proof.
  revert inp. induction s as [|c s IH]; intros inp; simpl.
  - split; [by intros [= ->] | by intros ->].
  - destruct inp as [|x inp]; [split; [done | by intros [=]]|].
    destruct (Ascii.eqb_spec x c) as [->|Hne].
    + rewrite IH. split; [by intros -> | by intros [= ->]].
    + split; [done | intros [= ? ?]; by subst].
Qed.

Lemma strip_none (s inp : list ascii) :
  Re.strip s inp = None → ¬ s `prefix_of` inp.
Proof.
  intros Hnone [rest Hrest]. apply strip_spec in Hrest. congruence.
Qed.

(** An alternation of literals matches its first literal that occurs. *)
Lemma alt_literals_first (l : list string) (n : nat) (inp rest : list ascii) :
  l ≠ [] →
  Re.run (Re.join_alt (Re.Lit <$> l)) n inp Some = Some rest →
  ∃ l1 s l2,
    l = l1 ++ s :: l2
    ∧ inp = PyStr.chars s ++ rest
    ∧ Forall (λ s', ¬ PyStr.chars s' `prefix_of` inp) l1.
Proof.
  induction l as [|a l IH]; [done|]. intros _ Hrun.
  destruct l as [|b l].
  - simpl in Hrun.
    destruct (Re.strip (PyStr.chars a) inp) as [inp'|] eqn:Ha; [|done].
    injection Hrun as ->. apply strip_spec in Ha.
    exists [], a, []. by repeat split.
  - change (Re.join_alt (Re.Lit <$> a :: b :: l))
      with (Re.Alt (Re.Lit a) (Re.join_alt (Re.Lit <$> b :: l))) in Hrun.
    cbn [Re.run] in Hrun.
    destruct (Re.strip (PyStr.chars a) inp) as [inp'|] eqn:Ha.
    + injection Hrun as ->. apply strip_spec in Ha.
      exists [], a, (b :: l). by repeat split.
    + destruct (IH ltac:(done) Hrun) as (l1 & s & l2 & Hl & Hinp & Hl1).
      exists (a :: l1), s, l2. rewrite Hl. repeat split; [done|].
      constructor; [by apply strip_none | done].
Qed.

Lemma ascii_compare_refl (c : ascii) : Ascii.compare c c = Eq.
Proof. unfold Ascii.compare. apply N.compare_refl. Qed.

(** A literal is lexicographically at most any literal it is a prefix of. *)
Lemma prefix_le (a b : string) :
  PyStr.chars a `prefix_of` PyStr.chars b → String.le a b.
Proof.
  unfold String.le, String.leb. revert b.
  induction a as [|c a IH]; intros b Hpre.
  - by destruct b.
  - destruct b as [|c' b]; simpl in Hpre.
    + destruct Hpre as [k Hk]. discriminate.
    + destruct Hpre as [k Hk]. injection Hk as -> Hk.
      simpl. rewrite ascii_compare_refl. apply IH. by exists k.
Qed.

Lemma symbol_order_perm (symbols : list string) :
  Lexer.symbol_order symbols ≡ₚ symbols.
Proof.
  unfold Lexer.symbol_order.
  by rewrite reverse_Permutation, merge_sort_Permutation.
Qed.

Lemma symbol_order_sorted (symbols : list string) :
  StronglySorted (flip String.le) (Lexer.symbol_order symbols).
Proof.
  unfold Lexer.symbol_order.
  apply Sorted.Sorted_StronglySorted.
  - intros x y z Hxy Hyz. unfold flip in *. by etrans.
  - apply Sorted_reverse, Sorted_merge_sort. apply _.
Qed.

Lemma strongly_sorted_lookup {A} (R : relation A) (l : list A) (j k : nat) (a b : A) :
  StronglySorted R l → l !! j = Some a → l !! k = Some b → (j < k)%nat → R a b.
Proof.
  intros Hs. revert j k. induction Hs as [|x l Hs IH Hall]; intros j k Hj Hk Hlt.
  - by rewrite lookup_nil in Hj.
  - destruct k as [|k]; [lia|]. destruct j as [|j]; simpl in *.
    + injection Hj as ->. rewrite Forall_forall in Hall.
      apply Hall. by eapply list_elem_of_lookup_2.
    + eapply IH; eauto. lia.
Qed.

Lemma symbol_order_reverse_lexicographic (symbols : list string) :
  reverse_lexicographic (Lexer.symbol_order symbols).
Proof.
  intros j k a b Hj Hk Hlt.
  exact (strongly_sorted_lookup _ _ j k a b (symbol_order_sorted symbols) Hj Hk Hlt).
Qed.

Lemma slice_of_occurrence (string_ s : string) (i : Z) (rest : list ascii) :
  0 ≤ i ≤ PyStr.len string_ →
  drop (Z.to_nat i) (PyStr.chars string_) = PyStr.chars s ++ rest →
  PyStr.len string_ - Z.of_nat (length rest) = i + PyStr.len s
  ∧ PyStr.slice string_ i (i + PyStr.len s) = s.
Proof.
  intros Hi Hdrop.
  assert (Hlen : PyStr.len string_ - Z.of_nat (length rest) = i + PyStr.len s).
  { apply (f_equal length) in Hdrop.
    rewrite length_drop, length_app in Hdrop. unfold PyStr.len in *. lia. }
  split; [done|].
  unfold PyStr.slice, PyStr.window, PyStr.slice_index.
  destruct (i <? 0) eqn:Hneg; [lia|].
  destruct (i + PyStr.len s <? 0) eqn:Hneg'; [unfold PyStr.len in *; lia|].
  rewrite (Z.min_l i) by lia.
  rewrite (Z.min_l (i + PyStr.len s)) by lia.
  rewrite Hdrop.
  replace (Z.to_nat (i + PyStr.len s - i)) with (length (PyStr.chars s))
    by (unfold PyStr.len; lia).
  rewrite take_app_length. apply string_of_list_ascii_of_string.
Qed.

Lemma symbol_match_inv (symbols : list string) (string_ : string) (i : Z)
    (m : Re.Match) :
  symbols ≠ [] →
  Re.match_ (Lexer.symbol_regex symbols) string_ i = Some m →
  ∃ l1 s l2,
    Lexer.symbol_order symbols = l1 ++ s :: l2
    ∧ occurs_at s string_ (Re.m_start m)
    ∧ Forall (λ s', ¬ occurs_at s' string_ (Re.m_start m)) l1
    ∧ Re.m_group m = s
    ∧ Re.m_end m = Re.m_start m + PyStr.len s.
Proof.
  intros Hne Hm. unfold Re.match_ in Hm.
  set (n := PyStr.len string_) in *.
  set (i' := Z.max 0 (Z.min i n)) in *.
  set (inp := drop (Z.to_nat i') (PyStr.chars string_)) in *.
  destruct (Re.run (Lexer.symbol_regex symbols) (length inp) inp Some)
    as [rest|] eqn:Hrun; [|done].
  injection Hm as <-. simpl.
  assert (Hne' : Lexer.symbol_order symbols ≠ []).
  { intros Hnil. pose proof (symbol_order_perm symbols) as Hp.
    rewrite Hnil in Hp. apply Permutation_nil_l in Hp. done. }
  destruct (alt_literals_first _ _ _ _ Hne' Hrun) as (l1 & s & l2 & Hl & Hinp & Hl1).
  assert (Hi' : 0 ≤ i' ≤ n) by (unfold i', n, PyStr.len; lia).
  destruct (slice_of_occurrence string_ s i' rest Hi' Hinp) as [Hend Hgroup].
  exists l1, s, l2. fold n in Hend. rewrite Hend. repeat split; try done.
  by exists rest.
Qed.

(** When the symbol pattern matches at an offset, the text it matches is a
    literal of the symbol set occurring there, and no literal of the set
    occurring at that offset is longer. *)
Lemma symbol_match_longest (symbols : list string) (string_ : string)
    (i : Z) (m : Re.Match) :
  symbols ≠ [] →
  Re.match_ (Lexer.symbol_regex symbols) string_ i = Some m →
  Re.m_group m ∈ symbols
  ∧ occurs_at (Re.m_group m) string_ (Re.m_start m)
  ∧ Re.m_end m = Re.m_start m + PyStr.len (Re.m_group m)
  ∧ (∀ symbol, symbol ∈ symbols → occurs_at symbol string_ (Re.m_start m) →
       PyStr.len symbol ≤ PyStr.len (Re.m_group m)).
Proof.
  intros Hne Hm.
  destruct (symbol_match_inv symbols string_ i m Hne Hm)
    as (l1 & s & l2 & Hl & Hocc & Hl1 & Hgroup & Hend).
  rewrite Hgroup.
  assert (Hin : ∀ x, x ∈ symbols ↔ x ∈ l1 ++ s :: l2).
  { intros x. by rewrite <- Hl, symbol_order_perm. }
  split_and!.
  - apply Hin. rewrite elem_of_app, elem_of_cons. auto.
  - exact Hocc.
  - exact Hend.
  - intros symbol Hsym Hocc'.
    apply Hin in Hsym. apply elem_of_app in Hsym as [Hsym|Hsym].
    { rewrite Forall_forall in Hl1. by destruct (Hl1 _ Hsym). }
    apply elem_of_cons in Hsym as [->|Hsym]; [done|].
    assert (Hle : String.le symbol s).
    { pose proof (symbol_order_sorted symbols) as Hs. rewrite Hl in Hs.
      apply StronglySorted_app_1_r in Hs.
      apply StronglySorted_cons in Hs as [Hall _].
      rewrite Forall_forall in Hall. by apply Hall. }
    destruct (prefix_weak_total _ _ _ Hocc Hocc') as [Hpre|Hpre].
    + apply prefix_le in Hpre.
      assert (s = symbol) as -> by (by apply (anti_symm String.le)).
      done.
    + apply prefix_length in Hpre. unfold PyStr.len. lia.
Qed.






(** ** Parser engine *)

(** *** The list of tokens is never changed *)

Lemma keeps_ret {A} (a : A) : keeps_tokens (ret a).
Proof. intros st o st' [= <- <-]. done. Qed.

Lemma keeps_lift {A} (o : outcome A) : keeps_tokens (lift o).
Proof. intros st o' st' [= <- <-]. done. Qed.

Lemma keeps_diverge {A} : keeps_tokens (@diverge A).
Proof. intros st o st' [=]. Qed.

Lemma keeps_bind {A B} (m : M A) (k : A → M B) :
  keeps_tokens m → (∀ a, keeps_tokens (k a)) → keeps_tokens (bind m k).
Proof.
  intros Hm Hk st o st' Hrun. unfold bind in Hrun.
  destruct (m st) as [[[a|e] st1]|] eqn:Hmst; [| |done].
  - rewrite (Hk a _ _ _ Hrun). by eapply Hm.
  - injection Hrun as <- <-. by eapply Hm.
Qed.

Lemma keeps_peek : keeps_tokens peek.
Proof. intros st o st' [= <- <-]. done. Qed.

Lemma keeps_next : keeps_tokens next.
Proof. intros st o st' [= <- <-]. done. Qed.

Lemma keeps_save : keeps_tokens save.
Proof. intros st o st' [= <- <-]. done. Qed.

Lemma keeps_load (position : Z) : keeps_tokens (load position).
Proof. intros st o st' [= <- <-]. done. Qed.

Create HintDb keeps.
#[local] Hint Resolve keeps_ret keeps_lift keeps_diverge keeps_peek keeps_next
  keeps_save keeps_load : keeps.

Ltac keeps_step :=
  repeat first
    [ apply keeps_bind; [|intros ?]
    | match goal with |- keeps_tokens (if ?b then _ else _) => destruct b end
    | solve [auto with keeps] ].

Lemma keeps___call__ (parse : M value) :
  keeps_tokens parse → keeps_tokens (Parser.__call__ parse).
Proof. intros Hparse. unfold Parser.__call__. keeps_step. Qed.

Lemma keeps_TokenSatisfying__parse condition :
  keeps_tokens (Parser.TokenSatisfying__parse condition).
Proof. unfold Parser.TokenSatisfying__parse. keeps_step. Qed.

Lemma keeps_Or__parse (call : pid → M value) (children : list pid) :
  (∀ p, keeps_tokens (call p)) → keeps_tokens (Parser.Or__parse call children).
Proof.
  intros Hcall. induction children as [|p rest IH]; simpl; keeps_step.
Qed.

Lemma keeps_And__loop (call : pid → M value) (children : list pid)
    (results : list value) :
  (∀ p, keeps_tokens (call p)) →
  keeps_tokens (Parser.And__loop call children results).
Proof.
  intros Hcall. revert results.
  induction children as [|p rest IH]; intros results; simpl; keeps_step.
Qed.

Lemma keeps_Repeat__loop (call : M value) (at_least : Z) (at_most : option Z)
    (fuel : nat) (results : list value) :
  keeps_tokens call →
  keeps_tokens (Parser.Repeat__loop call at_least at_most fuel results).
Proof.
  intros Hcall. revert results.
  induction fuel as [|fuel IH]; intros results; simpl; keeps_step.
Qed.

Lemma keeps__parse store (call : pid → M value) (fuel : nat) (self : pid) :
  (∀ p, keeps_tokens (call p)) → keeps_tokens (Parser._parse store call fuel self).
Proof.
  intros Hcall. unfold Parser._parse.
  destruct (store !! self) as [[| | | | [p|] | | |]|];
    auto using keeps_TokenSatisfying__parse, keeps_Or__parse, keeps_Repeat__loop
      with keeps.
  - keeps_step.
  - by apply keeps_And__loop.
Qed.

Lemma keeps_call store (fuel : nat) (self : pid) :
  keeps_tokens (Parser.call store fuel self).
Proof.
  revert self. induction fuel as [|fuel IH]; intros self; simpl.
  - apply keeps_diverge.
  - by apply keeps___call__, keeps__parse.
Qed.

(** *** Backtracking *)

(** What [Parser.__call__] returns when [_parse] gave [None]: the stream with
    its cursor put back. *)
Lemma __call___no_match (parse : M value) (st st' : TokenStream) :
  Parser.__call__ parse st = Some (Ret VNone, st') →
  ∃ st1, parse st = Some (Ret VNone, st1) ∧ st' = Stream.load st1 (position st).
Proof.
  unfold Parser.__call__, bind, save, load, ret, Stream.save. intros Hrun.
  destruct (parse st) as [[[v|e] st1]|] eqn:Hparse; [| done | done].
  destruct v; simpl in Hrun; try done.
  injection Hrun as <-. by exists st1.
Qed.

(** C1.  Whatever the parser and however deep the invocations nested inside
    it, when the public invocation returns the no-match outcome the stream
    is exactly as it was before the call: same tokens, same cursor.  A
    sequence whose second child fails is one instance. *)
Theorem failed_call_restores_stream (store : gmap pid parser) (fuel : nat)
    (self : pid) (st st' : TokenStream) :
  Parser.call store fuel self st = Some (Ret VNone, st') →
  position st' = position st ∧ st' = st.
Proof.
  intros Hcall.
  pose proof (keeps_call store fuel self st _ _ Hcall) as Htokens.
  destruct fuel as [|fuel]; [done|]. simpl in Hcall.
  apply __call___no_match in Hcall as (st1 & _ & ->).
  destruct st as [tokens pos]. simpl in *. split; [done|].
  unfold Stream.load. simpl. by rewrite Htokens.
Qed.

Lemma failed_call_restores_stream_witness :
  let st := {| token_list := tokens_a_c; position := 0 |} in
  Parser.call sample_store 2 0%nat st
    = Some (Ret (VToken (token_at "a c" "a" 0)), Stream.load st 1)
  ∧ Parser.call sample_store 2 2%nat st = Some (Ret VNone, st)
  ∧ position st = position st ∧ st = st.
Proof.
  intros st.
  assert (Hcall : Parser.call sample_store 2 2%nat st = Some (Ret VNone, st))
    by (vm_compute; reflexivity).
  split; [vm_compute; reflexivity|]. split; [exact Hcall|].
  exact (failed_call_restores_stream sample_store 2 2%nat st st Hcall).
Defined.

(** C10.  When the function of a result-transformation node returns [None]
    for a child that succeeded, the public invocation of the node returns
    the no-match outcome and the stream is back where it was before the
    child consumed anything: the outcome a failing parser has. *)
Theorem action_returning_none_is_a_failure (store : gmap pid parser) (fuel : nat)
    (self p : pid) (action : value → outcome value) (st st' : TokenStream)
    (v : value) :
  store !! self = Some (Action p action) →
  Parser.call store fuel p st = Some (Ret v, st') →
  v ≠ VNone →
  action v = Ret VNone →
  Parser.call store (S fuel) self st = Some (Ret VNone, st).
Proof.
  intros Hself Hchild Hv Haction.
  pose proof (keeps_call store fuel p st _ _ Hchild) as Htokens.
  cbn [Parser.call]. unfold Parser.__call__, Parser._parse. rewrite Hself.
  unfold bind, save, lift, load, ret. rewrite Hchild, Haction. simpl.
  destruct st as [tokens pos]. unfold Stream.load, Stream.save. simpl in *.
  by rewrite Htokens.
Qed.

Lemma action_returning_none_is_a_failure_witness :
  let st := {| token_list := tokens_a_a; position := 0 |} in
  let v := VToken (token_at "a a" "a" 0) in
  sample_store !! 5%nat = Some (Action 0%nat (λ _, Ret VNone))
  ∧ Parser.call sample_store 1 0%nat st = Some (Ret v, Stream.load st 1)
  ∧ v ≠ VNone
  ∧ Parser.call sample_store 2 5%nat st = Some (Ret VNone, st).
Proof.
  intros st v.
  assert (Hself : sample_store !! 5%nat = Some (Action 0%nat (λ _, Ret VNone)))
    by (vm_compute; reflexivity).
  assert (Hchild : Parser.call sample_store 1 0%nat st = Some (Ret v, Stream.load st 1))
    by (vm_compute; reflexivity).
  assert (Hv : v ≠ VNone) by discriminate.
  split; [exact Hself|]. split; [exact Hchild|]. split; [exact Hv|].
  exact (action_returning_none_is_a_failure sample_store 1 5%nat 0%nat
           (λ _, Ret VNone) st (Stream.load st 1) v Hself Hchild Hv eq_refl).
Defined.

(** *** Bounded repetition *)

(** Once the list of results is longer than the bound, the loop is over and
    the method returns [None]. *)
Lemma Repeat__loop_over_bound (call : M value) (at_least n : Z) (fuel : nat)
    (results : list value) :
  n < Z.of_nat (length results) →
  Parser.Repeat__loop call at_least (Some n) fuel results = ret VNone.
Proof.
  intros Hlen. destruct fuel; simpl;
    destruct (Z.of_nat (length results) <=? n) eqn:Hle; try lia; done.
Qed.

(** C3.  On the tokens of [a a], where the matcher of [a] succeeds at offset
    0 and again at offset 1, the repetition of at most one [a] takes both,
    finds its list longer than the bound, and returns the no-match outcome
    with the cursor back at 0: no list of one result, and no remainder left
    after a first match.  With the bound 2 the third attempt fails by itself
    and the two results are returned. *)
Theorem at_most_fails_when_more_would_match :
  let st := {| token_list := tokens_a_a; position := 0 |} in
  Parser.call sample_store 1 0%nat st
    = Some (Ret (VToken (token_at "a a" "a" 0)), Stream.load st 1)
  ∧ Parser.call sample_store 1 0%nat (Stream.load st 1)
    = Some (Ret (VToken (token_at "a a" "a" 2)), Stream.load st 2)
  ∧ sample_store !! 3%nat = Some (AtMost 0%nat 1)
  ∧ Parser.call sample_store 3 3%nat st = Some (Ret VNone, st)
  ∧ Parser.call sample_store 4 4%nat st
    = Some (Ret (VList [VToken (token_at "a a" "a" 0); VToken (token_at "a a" "a" 2)]),
            Stream.load st 2).
Proof. intros st. split_and!; vm_compute; reflexivity. Qed.

(** *** Grammar introspection *)

(** From an object that is not yet in [seen], [descendants] adds that object
    and nothing else: every turn of its loop calls [descendants] on [self],
    which is in [seen] by then. *)
Lemma descendants_loop_self store (fuel : nat) (self : pid) (children : list pid)
    (seen : gset pid) :
  self ∈ seen →
  Parser.descendants_loop (Parser.descendants store (S fuel)) self children seen
  = Some seen.
Proof.
  intros Hin. induction children as [|parser rest IH]; [done|].
  cbn [Parser.descendants_loop Parser.descendants].
  by rewrite decide_True.
Qed.

Lemma descendants_only_self store (fuel : nat) (self : pid) (node : parser)
    (seen : gset pid) :
  store !! self = Some node → self ∉ seen →
  Parser.descendants store (S (S fuel)) self seen = Some (seen ∪ {[self]}).
Proof.
  intros Hnode Hnotin. cbn [Parser.descendants].
  rewrite decide_False by done. rewrite Hnode.
  apply descendants_loop_self. set_solver.
Qed.

(** C2.  The traversal terminates but visits the root only.  For the grammar
    [And(Keyword('if'), Symbol('('))] the children of the root are the two
    matchers, the set of descendants is the root alone, and both literal sets
    come out empty: the keyword [if] and the symbol [(] are not collected. *)
Theorem descendants_visits_root_only :
  children_of (And [1%nat; 2%nat]) = [1%nat; 2%nat]
  ∧ if_store !! 1%nat = Some (Keyword "if")
  ∧ if_store !! 2%nat = Some (Symbol "(")
  ∧ (∀ fuel, Parser.descendants if_store (S (S fuel)) 0%nat ∅ = Some {[0%nat]})
  ∧ (∀ fuel, Parser.literals if_store (S (S fuel)) 0%nat = Some (∅, ∅)).
Proof.
  assert (Hroot : if_store !! 0%nat = Some (And [1%nat; 2%nat]))
    by (vm_compute; reflexivity).
  assert (Hdesc : ∀ fuel,
    Parser.descendants if_store (S (S fuel)) 0%nat ∅ = Some {[0%nat]}).
  { intros fuel.
    by rewrite (descendants_only_self if_store fuel 0%nat _ ∅ Hroot) by set_solver. }
  split_and!.
  - reflexivity.
  - vm_compute. reflexivity.
  - vm_compute. reflexivity.
  - exact Hdesc.
  - intros fuel. unfold Parser.literals. rewrite Hdesc.
    vm_compute. reflexivity.
Qed.

(** [parse_string] therefore never reaches the parser: for a root that
    exists, introspection returns and the tokenizer raises. *)
Lemma parse_string_raises store (fuel : nat) (self : pid) (node : parser)
    (string_ : string) :
  store !! self = Some node →
  ∃ e, Parser.parse_string store (S (S fuel)) self string_ = Some (Raise e).
Proof.
  intros Hnode. unfold Parser.parse_string, Parser.literals.
  rewrite (descendants_only_self store fuel self node ∅ Hnode) by set_solver.
  unfold LexerRun.__call__.
  match goal with |- context [LexerRun._lex _ ?lx _ _ _] =>
    destruct (lex_raises (S fuel) lx string_ 0 []) as (e & -> & _) end.
  by exists e.
Qed.

(** * Further properties *)

(** ** Token stream: cursor operations *)

(** Inside the list, [next] returns the token under the cursor, which is the
    one [peek] shows, and moves the cursor by exactly one. *)
Theorem next_in_range_returns_peeked (st : TokenStream) (t : Token) :
  0 ≤ position st →
  token_list st !! Z.to_nat (position st) = Some t →
  Stream.peek st = Ret t
  ∧ Stream.next st = (Ret t, Stream.load st (position st + 1)).
Proof.
  intros Hpos Ht. apply lookup_lt_Some in Ht as Hlt. split.
  - unfold Stream.peek. rewrite Z.min_l by lia.
    by apply py_getitem_in_range.
  - unfold Stream.next, Stream.__next__. f_equal. simpl.
    apply py_getitem_in_range; [lia|].
    by replace (position st + 1 - 1) with (position st) by lia.
Qed.

Lemma next_in_range_returns_peeked_witness :
  let st := {| token_list := tokens_a_c; position := 1 |} in
  0 ≤ position st
  ∧ token_list st !! Z.to_nat (position st) = Some (token_at "a c" "c" 2)
  ∧ Stream.peek st = Ret (token_at "a c" "c" 2)
  ∧ Stream.next st = (Ret (token_at "a c" "c" 2), Stream.load st 2).
Proof.
  intros st.
  assert (Hpos : 0 ≤ position st) by (vm_compute; discriminate).
  assert (Ht : token_list st !! Z.to_nat (position st)
               = Some (token_at "a c" "c" 2)) by reflexivity.
  split; [exact Hpos|]. split; [exact Ht|].
  exact (next_in_range_returns_peeked st (token_at "a c" "c" 2) Hpos Ht).
Defined.

(** A checkpoint taken with [save] and given back to [load] undoes any number
    of [next] in between, whether they returned a token or raised. *)
Theorem load_of_save_undoes_next (st : TokenStream) (n : nat) :
  Stream.load (Nat.iter n (λ s, snd (Stream.next s)) st) (Stream.save st) = st.
Proof.
  assert (Htokens : ∀ k s, token_list (Nat.iter k (λ s, snd (Stream.next s)) s)
                          = token_list s).
  { induction k as [|k IH]; intros s; [done|]. simpl. by rewrite IH. }
  unfold Stream.load, Stream.save. rewrite Htokens. by destruct st.
Qed.

(** On a stream with no token at all, [peek] raises [IndexError] wherever
    the cursor is: the clamp only helps when there is a last token. *)
Theorem peek_on_empty_stream_raises (position : Z) :
  Stream.peek {| token_list := []; position := position |} = Raise IndexError.
Proof.
  unfold Stream.peek, py_getitem. simpl. by case_match.
Qed.

(** With at least one token and a cursor that is not negative, [peek]
    always returns a token of the list and never raises. *)
Theorem peek_never_raises (st : TokenStream) :
  token_list st ≠ [] → 0 ≤ position st →
  ∃ t, Stream.peek st = Ret t ∧ t ∈ token_list st.
Proof.
  intros Hne Hpos. unfold Stream.peek.
  set (n := Z.of_nat (length (token_list st))).
  assert (Hn : 1 ≤ n) by (unfold n; destruct (token_list st); [done|simpl; lia]).
  set (j := Z.min (position st) (n - 1)).
  assert (Hj : 0 ≤ j < n) by (unfold j; lia).
  destruct (lookup_lt_is_Some_2 (token_list st) (Z.to_nat j)) as [t Ht];
    [unfold n in *; lia|].
  exists t. split; [by apply py_getitem_in_range; [lia|]|].
  by eapply list_elem_of_lookup_2.
Qed.

Lemma peek_never_raises_witness :
  let st := {| token_list := tokens_a_c; position := 9 |} in
  token_list st ≠ [] ∧ 0 ≤ position st
  ∧ ∃ t, Stream.peek st = Ret t ∧ t ∈ token_list st.
Proof.
  intros st.
  assert (Hne : token_list st ≠ []) by discriminate.
  assert (Hpos : 0 ≤ position st) by (vm_compute; discriminate).
  split; [exact Hne|]. split; [exact Hpos|].
  exact (peek_never_raises st Hne Hpos).
Defined.

(** ** Token: line and column *)

Lemma find_in_absent (c : ascii) (l : list ascii) (i : Z) :
  c ∉ l → PyStr.find_in c l i = -1.
Proof.
  revert i. induction l as [|x l IH]; intros i Hnotin; [done|].
  simpl. destruct (Ascii.eqb_spec x c) as [->|Hne]; [set_solver|].
  apply IH. set_solver.
Qed.

(** What [rfind_in] returns: [-1] when the character is absent, otherwise
    the index of its last occurrence. *)
Lemma rfind_in_spec (c : ascii) (l : list ascii) (i : Z) :
  0 ≤ i →
  (PyStr.rfind_in c l i = -1 ∧ c ∉ l)
  ∨ (∃ k : nat, PyStr.rfind_in c l i = i + Z.of_nat k
       ∧ l !! k = Some c
       ∧ ∀ k' : nat, (k < k')%nat → l !! k' ≠ Some c).
Proof.
  revert i. induction l as [|x l IH]; intros i Hi.
  - left. split; [done | set_solver].
  - simpl. destruct (IH (i + 1) ltac:(lia)) as [[Hr Hnotin]|(k & Hr & Hk & Hlast)].
    + rewrite Hr. simpl. destruct (Ascii.eqb_spec x c) as [->|Hne].
      * right. exists 0%nat. split; [lia|]. split; [done|].
        intros [|k'] Hlt; [lia|]. simpl. intros Hk'.
        apply Hnotin. by eapply list_elem_of_lookup_2.
      * left. split; [done|]. apply not_elem_of_cons. split; [congruence | done].
    + rewrite Hr. destruct (i + 1 + Z.of_nat k =? -1) eqn:Heq; [lia|].
      right. exists (S k). split; [lia|]. split; [done|].
      intros [|k'] Hlt; [lia|]. simpl. apply Hlast. lia.
Qed.

(** The column number is 1-based and counts from the start of the line: the
    line starts at offset [start - column_number + 1], which is either the
    start of the source or just after a newline, and no newline lies between
    it and the token. *)
Theorem column_number_counts_from_line_start (token string_ : string)
    (start end_ : Z) :
  0 ≤ start ≤ PyStr.len string_ →
  let t := Token___init__ token string_ start end_ in
  let a := start - column_number t + 1 in
  1 ≤ column_number t ≤ start + 1
  ∧ (a = 0 ∨ PyStr.chars string_ !! Z.to_nat (a - 1) = Some PyStr.newline)
  ∧ ∀ k : nat, a ≤ Z.of_nat k < start →
      PyStr.chars string_ !! k ≠ Some PyStr.newline.
Proof.
  intros Hstart t a. subst a t. unfold Token___init__. simpl.
  unfold PyStr.rfind. rewrite window_prefix by done.
  unfold PyStr.slice_index. replace (0 <? 0) with false by done.
  rewrite (Z.min_l 0) by lia.
  set (l := take (Z.to_nat start) (PyStr.chars string_)).
  assert (Hl : length l = Z.to_nat start).
  { unfold l. rewrite length_take. unfold PyStr.len in Hstart. lia. }
  destruct (rfind_in_spec PyStr.newline l 0 ltac:(lia))
    as [[-> Hnotin]|(k & -> & Hk & Hlast)].
  - split; [lia|]. split; [left; lia|].
    intros k Hk Hnl. apply Hnotin.
    apply (list_elem_of_lookup_2 _ k). unfold l.
    rewrite lookup_take_lt by lia. done.
  - apply lookup_lt_Some in Hk as Hlt.
    split; [lia|]. split.
    + right. replace (Z.to_nat (start - (start - (0 + Z.of_nat k + 1) + 1) + 1 - 1))
        with k by lia.
      unfold l in Hk. rewrite lookup_take_lt in Hk by lia. done.
    + intros k' Hk' Hnl. apply (Hlast k'); [lia|].
      unfold l. rewrite lookup_take_lt by lia. done.
Qed.

Lemma column_number_counts_from_line_start_witness :
  0 ≤ 4 ≤ PyStr.len two_lines
  ∧ column_number (Token___init__ "d" two_lines 4 5) = 2
  ∧ 1 ≤ column_number (Token___init__ "d" two_lines 4 5) ≤ 4 + 1.
Proof.
  assert (H : 0 ≤ 4 ≤ PyStr.len two_lines) by (vm_compute; split; discriminate).
  split; [exact H|]. split; [reflexivity|].
  exact (proj1 (column_number_counts_from_line_start "d" two_lines 4 5 H)).
Defined.

Lemma window_subseteq (s : string) (a b : Z) :
  PyStr.window s a b ⊆ PyStr.chars s.
Proof.
  unfold PyStr.window. etrans; [apply subseteq_take | apply subseteq_drop].
Qed.

Lemma count_in_absent (c : ascii) (l : list ascii) :
  c ∉ l → PyStr.count_in c l = 0.
Proof.
  induction l as [|x l IH]; intros Hnotin; [done|].
  simpl. rewrite IH by set_solver.
  destruct (Ascii.eqb_spec x c) as [->|Hne]; [set_solver | done].
Qed.

Lemma rfind_in_absent (c : ascii) (l : list ascii) (i : Z) :
  c ∉ l → PyStr.rfind_in c l i = -1.
Proof.
  revert i. induction l as [|x l IH]; intros i Hnotin; [done|].
  simpl. rewrite IH by set_solver. simpl.
  destruct (Ascii.eqb_spec x c) as [->|Hne]; [set_solver | done].
Qed.

(** For a source text with no newline in it, wherever the token is said to
    be: the line number is 0, the column is [start + 1], and the stored line
    is the source without its last character, the end of the line being
    taken from the [-1] that [find] returns. *)
Theorem single_line_token (token string_ : string) (start end_ : Z) :
  PyStr.newline ∉ PyStr.chars string_ →
  let t := Token___init__ token string_ start end_ in
  line_number t = 0
  ∧ column_number t = start + 1
  ∧ line t = PyStr.of_chars (take (length (PyStr.chars string_) - 1)
                                  (PyStr.chars string_)).
Proof.
  intros Hnl t. subst t. unfold Token___init__. simpl.
  assert (Hw : ∀ a b, PyStr.newline ∉ PyStr.window string_ a b).
  { intros a b Hin. by apply Hnl, (window_subseteq string_ a b). }
  unfold PyStr.rfind, PyStr.find, PyStr.count.
  rewrite rfind_in_absent, find_in_absent, count_in_absent by apply Hw.
  split_and!.
  - done.
  - lia.
  - simpl. unfold PyStr.slice, PyStr.window, PyStr.slice_index. simpl.
    rewrite Z.min_l by (unfold PyStr.len; lia).
    rewrite drop_0. f_equal. f_equal. unfold PyStr.len. lia.
Qed.

Lemma single_line_token_witness :
  (PyStr.newline ∉ PyStr.chars "x = 1")
  ∧ line (Token___init__ "x" "x = 1" 0 1) = "x = "
  ∧ column_number (Token___init__ "x" "x = 1" 0 1) = 0 + 1.
Proof.
  assert (H : PyStr.newline ∉ PyStr.chars "x = 1")
    by (apply (bool_decide_unpack _); vm_compute; exact I).
  split; [exact H|]. split; [reflexivity|].
  exact (proj1 (proj2 (single_line_token "x" "x = 1" 0 1 H))).
Defined.

(** ** Parser engine: primitives *)

(** A call that returns the no-match outcome leaves the stream as it was. *)
Lemma no_match_leaves_stream (store : gmap pid parser) (fuel : nat) (self : pid)
    (st st' : TokenStream) :
  Parser.call store fuel self st = Some (Ret VNone, st') → st' = st.
Proof.
  intros Hcall.
  pose proof (keeps_call store fuel self st _ _ Hcall) as Htokens.
  destruct fuel as [|fuel]; [done|]. simpl in Hcall.
  apply __call___no_match in Hcall as (st1 & _ & ->).
  destruct st as [tokens pos]. unfold Stream.load. simpl in *. by rewrite Htokens.
Qed.

Lemma _parse_matcher store call (fuel : nat) (self : pid) (node : parser)
    (condition : Token → outcome bool) :
  store !! self = Some node → condition_of node = Some condition →
  Parser._parse store call fuel self = Parser.TokenSatisfying__parse condition.
Proof.
  intros Hnode Hcond. unfold Parser._parse. rewrite Hnode.
  destruct node as [| | | | [?|] | | |]; simpl in Hcond; by simplify_eq.
Qed.

(** A matcher ([TokenSatisfying], [Symbol] or [Keyword]) looks at the token
    under the cursor: when its condition accepts the token it returns that
    token and consumes exactly one; when it rejects it, the outcome is
    no-match and nothing is consumed. *)
Theorem matcher_consumes_one_or_nothing (store : gmap pid parser) (fuel : nat)
    (self : pid) (node : parser) (condition : Token → outcome bool)
    (st : TokenStream) (t : Token) (accepted : bool) :
  store !! self = Some node →
  condition_of node = Some condition →
  0 ≤ position st →
  token_list st !! Z.to_nat (position st) = Some t →
  condition t = Ret accepted →
  Parser.call store (S fuel) self st
  = if accepted then Some (Ret (VToken t), Stream.load st (position st + 1))
    else Some (Ret VNone, st).
Proof.
  intros Hnode Hcond Hpos Ht Hacc.
  destruct (next_in_range_returns_peeked st t Hpos Ht) as [Hpeek Hnext].
  cbn [Parser.call]. rewrite (_parse_matcher _ _ _ _ _ _ Hnode Hcond).
  unfold Parser.__call__, Parser.TokenSatisfying__parse, bind, save, peek, lift,
    next, load, ret.
  rewrite Hpeek, Hacc. destruct accepted.
  - by rewrite Hnext.
  - simpl. unfold Stream.load, Stream.save. by destruct st.
Qed.

Lemma matcher_consumes_one_or_nothing_witness :
  let st := {| token_list := tokens_a_c; position := 1 |} in
  let t := token_at "a c" "c" 2 in
  sample_store !! 0%nat = Some (TokenMatching "a")
  ∧ token_list st !! Z.to_nat (position st) = Some t
  ∧ token_is "a" t = Ret false
  ∧ Parser.call sample_store 1 0%nat st = Some (Ret VNone, st).
Proof.
  intros st t.
  assert (Hnode : sample_store !! 0%nat = Some (TokenMatching "a"))
    by (vm_compute; reflexivity).
  assert (Hpos : 0 ≤ position st) by (vm_compute; discriminate).
  assert (Ht : token_list st !! Z.to_nat (position st) = Some t) by reflexivity.
  assert (Hacc : token_is "a" t = Ret false) by reflexivity.
  split; [exact Hnode|]. split; [exact Ht|]. split; [exact Hacc|].
  exact (matcher_consumes_one_or_nothing sample_store 0 0%nat _ (token_is "a")
           st t false Hnode eq_refl Hpos Ht Hacc).
Defined.

(** With the cursor past the last token, a matcher whose condition accepts
    that last token does not fail: [peek] shows it the last token, [next]
    raises [IndexError], and the exception leaves the cursor one further on,
    [Parser.__call__] restoring the cursor only for a [None] result. *)
Theorem matcher_past_end_raises (store : gmap pid parser) (fuel : nat)
    (self : pid) (node : parser) (condition : Token → outcome bool)
    (st : TokenStream) (t : Token) :
  store !! self = Some node →
  condition_of node = Some condition →
  last (token_list st) = Some t →
  Z.of_nat (length (token_list st)) ≤ position st →
  condition t = Ret true →
  Parser.call store (S fuel) self st
  = Some (Raise IndexError, Stream.load st (position st + 1)).
Proof.
  intros Hnode Hcond Hlast Hpos Hacc.
  cbn [Parser.call]. rewrite (_parse_matcher _ _ _ _ _ _ Hnode Hcond).
  unfold Parser.__call__, Parser.TokenSatisfying__parse, bind, save, peek, lift,
    next, load, ret.
  rewrite (peek_at_end st t Hlast) by lia. rewrite Hacc.
  unfold Stream.next, Stream.__next__.
  rewrite py_getitem_past_end by (simpl; lia). done.
Qed.

Lemma matcher_past_end_raises_witness :
  let st := {| token_list := tokens_a_a; position := 3 |} in
  let store : gmap pid parser := {[ 0%nat := TokenMatching "" ]} in
  store !! 0%nat = Some (TokenMatching "")
  ∧ last (token_list st) = Some (eof_of "a a")
  ∧ Parser.call store 1 0%nat st = Some (Raise IndexError, Stream.load st 4).
Proof.
  intros st store.
  assert (Hnode : store !! 0%nat = Some (TokenMatching ""))
    by (vm_compute; reflexivity).
  assert (Hlast : last (token_list st) = Some (eof_of "a a")) by reflexivity.
  assert (Hpos : Z.of_nat (length (token_list st)) ≤ position st)
    by (vm_compute; discriminate).
  split; [exact Hnode|]. split; [exact Hlast|].
  exact (matcher_past_end_raises store 0 0%nat _ (token_is "") st
           (eof_of "a a") Hnode eq_refl Hlast Hpos eq_refl).
Defined.

(** A [Proxy] is transparent: invoking it gives exactly the outcome and the
    stream that invoking its target gives.  With no target assigned, the
    invocation raises [TypeError] and consumes nothing. *)
Theorem proxy_is_transparent (store : gmap pid parser) (fuel : nat)
    (self : pid) (target : option pid) (st : TokenStream) :
  store !! self = Some (Proxy target) →
  Parser.call store (S fuel) self st
  = match target with
    | Some p => Parser.call store fuel p st
    | None => Some (Raise TypeError, st)
    end.
Proof.
  intros Hnode. cbn [Parser.call]. unfold Parser.__call__, Parser._parse.
  rewrite Hnode. unfold bind, save, load, ret, lift.
  destruct target as [p|]; [|done].
  destruct (Parser.call store fuel p st) as [[[v|e] st1]|] eqn:Hcall; [|done|done].
  destruct (is_None v) eqn:Hv; [|done].
  destruct v; try done.
  apply no_match_leaves_stream in Hcall as ->.
  unfold Stream.load, Stream.save. by destruct st.
Qed.

Lemma proxy_is_transparent_witness :
  let st := {| token_list := tokens_a_c; position := 0 |} in
  let store : gmap pid parser :=
    {[ 0%nat := TokenMatching "a"; 1%nat := Proxy (Some 0%nat) ]} in
  store !! 1%nat = Some (Proxy (Some 0%nat))
  ∧ Parser.call store 2 1%nat st = Parser.call store 1 0%nat st
  ∧ Parser.call store 1 0%nat st
    = Some (Ret (VToken (token_at "a c" "a" 0)), Stream.load st 1).
Proof.
  intros st store.
  assert (Hnode : store !! 1%nat = Some (Proxy (Some 0%nat)))
    by (vm_compute; reflexivity).
  split; [exact Hnode|]. split; [|vm_compute; reflexivity].
  exact (proxy_is_transparent store 1 1%nat (Some 0%nat) st Hnode).
Defined.

(** ** Parser engine: combinators *)

(** [Or] returns the result of the first child that succeeds, the children
    before it having failed, and leaves the stream where that child left it;
    when every child fails the outcome is no-match. *)
Lemma Or__parse_first_success (call : pid → M value) (l1 l2 : list pid) (p : pid)
    (st st' : TokenStream) (v : value) :
  Forall (λ q, call q st = Some (Ret VNone, st)) l1 →
  call p st = Some (Ret v, st') → v ≠ VNone →
  Parser.Or__parse call (l1 ++ p :: l2) st = Some (Ret v, st').
Proof.
  intros Hl1 Hp Hv. induction Hl1 as [|q l1 Hq _ IH]; simpl; unfold bind.
  - rewrite Hp. by destruct v.
  - by rewrite Hq.
Qed.

Lemma Or__parse_all_fail (call : pid → M value) (children : list pid)
    (st : TokenStream) :
  Forall (λ q, call q st = Some (Ret VNone, st)) children →
  Parser.Or__parse call children st = Some (Ret VNone, st).
Proof.
  intros Hall. induction Hall as [|q l Hq _ IH]; simpl; unfold bind; [done|].
  by rewrite Hq.
Qed.

Lemma Forall_no_match store (fuel : nat) (l : list pid) (st : TokenStream) :
  Forall (λ q, ∃ s, Parser.call store fuel q st = Some (Ret VNone, s)) l →
  Forall (λ q, Parser.call store fuel q st = Some (Ret VNone, st)) l.
Proof.
  intros Hall. eapply Forall_impl; [exact Hall|]. intros q [s Hs]. simpl.
  by rewrite Hs, (no_match_leaves_stream _ _ _ _ _ Hs).
Qed.

Theorem or_returns_first_success (store : gmap pid parser) (fuel : nat)
    (self p : pid) (l1 l2 : list pid) (st st' : TokenStream) (v : value) :
  store !! self = Some (Or (l1 ++ p :: l2)) →
  Forall (λ q, ∃ s, Parser.call store fuel q st = Some (Ret VNone, s)) l1 →
  Parser.call store fuel p st = Some (Ret v, st') →
  v ≠ VNone →
  Parser.call store (S fuel) self st = Some (Ret v, st').
Proof.
  intros Hnode Hl1 Hp Hv. apply Forall_no_match in Hl1.
  cbn [Parser.call]. unfold Parser.__call__, Parser._parse. rewrite Hnode.
  unfold bind at 1. unfold save. unfold bind at 1.
  rewrite (Or__parse_first_success _ l1 l2 p st st' v Hl1 Hp Hv).
  by destruct v.
Qed.

Lemma or_returns_first_success_witness :
  let st := {| token_list := tokens_a_c; position := 0 |} in
  let store : gmap pid parser :=
    {[ 0%nat := TokenMatching "b"; 1%nat := TokenMatching "a";
       2%nat := TokenSatisfying (λ _, Ret true);
       3%nat := Or [0%nat; 1%nat; 2%nat] ]} in
  let v := VToken (token_at "a c" "a" 0) in
  store !! 3%nat = Some (Or ([0%nat] ++ 1%nat :: [2%nat]))
  ∧ Parser.call store 1 1%nat st = Some (Ret v, Stream.load st 1)
  ∧ Parser.call store 2 3%nat st = Some (Ret v, Stream.load st 1).
Proof.
  intros st store v.
  assert (Hnode : store !! 3%nat = Some (Or ([0%nat] ++ 1%nat :: [2%nat])))
    by (vm_compute; reflexivity).
  assert (Hl1 : Forall (λ q, ∃ s, Parser.call store 1 q st = Some (Ret VNone, s))
                  [0%nat]).
  { constructor; [|constructor]. exists st. vm_compute. reflexivity. }
  assert (Hp : Parser.call store 1 1%nat st = Some (Ret v, Stream.load st 1))
    by (vm_compute; reflexivity).
  assert (Hv : v ≠ VNone) by discriminate.
  split; [exact Hnode|]. split; [exact Hp|].
  exact (or_returns_first_success store 1 3%nat 1%nat [0%nat] [2%nat] st
           (Stream.load st 1) v Hnode Hl1 Hp Hv).
Defined.

Theorem or_fails_when_all_fail (store : gmap pid parser) (fuel : nat)
    (self : pid) (children : list pid) (st : TokenStream) :
  store !! self = Some (Or children) →
  Forall (λ q, ∃ s, Parser.call store fuel q st = Some (Ret VNone, s)) children →
  Parser.call store (S fuel) self st = Some (Ret VNone, st).
Proof.
  intros Hnode Hall. apply Forall_no_match in Hall.
  cbn [Parser.call]. unfold Parser.__call__, Parser._parse. rewrite Hnode.
  unfold bind at 1. unfold save. unfold bind at 1.
  rewrite (Or__parse_all_fail _ children st Hall). simpl.
  unfold load, ret, bind, Stream.load, Stream.save. by destruct st.
Qed.

Lemma or_fails_when_all_fail_witness :
  let st := {| token_list := tokens_a_c; position := 1 |} in
  let store : gmap pid parser :=
    {[ 0%nat := TokenMatching "b"; 1%nat := TokenMatching "a";
       2%nat := Or [0%nat; 1%nat]; 3%nat := Or [] ]} in
  store !! 2%nat = Some (Or [0%nat; 1%nat])
  ∧ Parser.call store 2 2%nat st = Some (Ret VNone, st).
Proof.
  intros st store.
  assert (Hnode : store !! 2%nat = Some (Or [0%nat; 1%nat]))
    by (vm_compute; reflexivity).
  assert (Hall : Forall (λ q, ∃ s, Parser.call store 1 q st = Some (Ret VNone, s))
                   [0%nat; 1%nat]).
  { repeat constructor; exists st; vm_compute; reflexivity. }
  split; [exact Hnode|].
  exact (or_fails_when_all_fail store 1 2%nat [0%nat; 1%nat] st Hnode Hall).
Defined.

Lemma And__loop_in_sequence (call : pid → M value) (children : list pid)
    (st st' : TokenStream) (vs results : list value) :
  in_sequence call children st vs st' →
  Parser.And__loop call children results st = Some (Ret (VList (results ++ vs)), st').
Proof.
  intros Hseq. revert results.
  induction Hseq as [st|p rest st st1 st2 v vs Hp Hv _ IH]; intros results.
  - simpl. by rewrite app_nil_r.
  - simpl. unfold bind. rewrite Hp.
    destruct (is_None v) eqn:Hnone; [by destruct v|].
    rewrite IH. by rewrite <- app_assoc.
Qed.

(** [And] succeeds when its children succeed one after the other, each from
    where the one before stopped: its result is the list of their results in
    order, and the stream is where the last child left it.  With no child at
    all it succeeds with the empty list and consumes nothing. *)
Theorem and_collects_results_in_order (store : gmap pid parser) (fuel : nat)
    (self : pid) (children : list pid) (st st' : TokenStream) (vs : list value) :
  store !! self = Some (And children) →
  in_sequence (Parser.call store fuel) children st vs st' →
  Parser.call store (S fuel) self st = Some (Ret (VList vs), st').
Proof.
  intros Hnode Hseq.
  cbn [Parser.call]. unfold Parser.__call__, Parser._parse. rewrite Hnode.
  unfold Parser.And__parse. unfold bind at 1. unfold save. unfold bind at 1.
  by rewrite (And__loop_in_sequence _ _ _ _ _ [] Hseq).
Qed.

Lemma and_collects_results_in_order_witness :
  let st := {| token_list := tokens_a_c; position := 0 |} in
  let store : gmap pid parser :=
    {[ 0%nat := TokenMatching "a"; 1%nat := TokenMatching "c";
       2%nat := And [0%nat; 1%nat] ]} in
  let vs := [VToken (token_at "a c" "a" 0); VToken (token_at "a c" "c" 2)] in
  store !! 2%nat = Some (And [0%nat; 1%nat])
  ∧ in_sequence (Parser.call store 1) [0%nat; 1%nat] st vs (Stream.load st 2)
  ∧ Parser.call store 2 2%nat st = Some (Ret (VList vs), Stream.load st 2).
Proof.
  intros st store vs.
  assert (Hnode : store !! 2%nat = Some (And [0%nat; 1%nat]))
    by (vm_compute; reflexivity).
  assert (Hseq : in_sequence (Parser.call store 1) [0%nat; 1%nat] st vs
                   (Stream.load st 2)).
  { apply (in_sequence_cons _ _ _ _ (Stream.load st 1));
      [vm_compute; reflexivity | discriminate |].
    apply (in_sequence_cons _ _ _ _ (Stream.load st 2));
      [vm_compute; reflexivity | discriminate |].
    apply in_sequence_nil. }
  split; [exact Hnode|]. split; [exact Hseq|].
  exact (and_collects_results_in_order store 1 2%nat [0%nat; 1%nat] st
           (Stream.load st 2) vs Hnode Hseq).
Defined.

Lemma And__loop_shape (call : pid → M value) (children : list pid)
    (results : list value) (st st' : TokenStream) (v : value) :
  Forall (λ r, r ≠ VNone) results →
  Parser.And__loop call children results st = Some (Ret v, st') →
  v = VNone
  ∨ ∃ l, v = VList l
         ∧ length l = (length results + length children)%nat
         ∧ Forall (λ r, r ≠ VNone) l.
Proof.
  revert results st. induction children as [|p rest IH]; intros results st Hres Hrun.
  - simpl in Hrun. injection Hrun as <- <-. right. exists results.
    split; [done|]. split; [simpl; lia | done].
  - simpl in Hrun. unfold bind in Hrun.
    destruct (call p st) as [[[r|e] st1]|]; [| done | done].
    destruct (is_None r) eqn:Hnone.
    + injection Hrun as <- <-. by left.
    + apply IH in Hrun as [->|(l & -> & Hlen & Hall)]; [by left | |].
      * right. exists l. split; [done|]. split; [|done].
        rewrite length_app in Hlen. simpl in *. lia.
      * apply Forall_app. split; [done|]. constructor; [|done].
        intros ->. done.
Qed.

(** Whenever [And] returns, it is either the no-match outcome, with the
    stream as it was, or a list with exactly one result per child, none of
    them [None]. *)
Theorem and_returns_one_result_per_child (store : gmap pid parser) (fuel : nat)
    (self : pid) (children : list pid) (st st' : TokenStream) (v : value) :
  store !! self = Some (And children) →
  Parser.call store fuel self st = Some (Ret v, st') →
  (v = VNone ∧ st' = st)
  ∨ ∃ l, v = VList l ∧ length l = length children ∧ Forall (λ r, r ≠ VNone) l.
Proof.
  intros Hnode Hcall.
  assert (v = VNone ∨ v ≠ VNone) as [->|Hv]
    by (destruct v; [by left | by right..]).
  { left. split; [done|]. by eapply no_match_leaves_stream. }
  right. destruct fuel as [|fuel]; [done|].
  cbn [Parser.call] in Hcall. unfold Parser.__call__, Parser._parse in Hcall.
  rewrite Hnode in Hcall. unfold Parser.And__parse in Hcall.
  unfold bind at 1 in Hcall. unfold save in Hcall. unfold bind at 1 in Hcall.
  destruct (Parser.And__loop (Parser.call store fuel) children [] st)
    as [[[r|e] st1]|] eqn:Hloop; [| done | done].
  apply And__loop_shape in Hloop as [->|(l & -> & Hlen & Hall)]; [| |done].
  - simpl in Hcall. unfold bind, load, ret in Hcall. by injection Hcall as <- _.
  - simpl in Hcall. injection Hcall as <- _. by exists l.
Qed.

Lemma and_returns_one_result_per_child_witness :
  let st := {| token_list := tokens_a_c; position := 0 |} in
  sample_store !! 2%nat = Some (And [0%nat; 1%nat])
  ∧ Parser.call sample_store 2 2%nat st = Some (Ret VNone, st)
  ∧ ((VNone = VNone ∧ st = st)
     ∨ ∃ l, VNone = VList l ∧ length l = length [0%nat; 1%nat]
            ∧ Forall (λ r, r ≠ VNone) l).
Proof.
  intros st.
  assert (Hnode : sample_store !! 2%nat = Some (And [0%nat; 1%nat]))
    by (vm_compute; reflexivity).
  assert (Hcall : Parser.call sample_store 2 2%nat st = Some (Ret VNone, st))
    by (vm_compute; reflexivity).
  split; [exact Hnode|]. split; [exact Hcall|].
  exact (and_returns_one_result_per_child sample_store 2 2%nat [0%nat; 1%nat]
           st st VNone Hnode Hcall).
Defined.

(** *** Repetition *)

Lemma Repeat__loop_shape (call : M value) (at_least : Z) (at_most : option Z)
    (fuel : nat) (results : list value) (st st' : TokenStream) (v : value) :
  Forall (λ r, r ≠ VNone) results →
  Parser.Repeat__loop call at_least at_most fuel results st = Some (Ret v, st') →
  v = VNone
  ∨ ∃ l, v = VList l
         ∧ at_least ≤ Z.of_nat (length l)
         ∧ (∀ n, at_most = Some n → Z.of_nat (length l) ≤ n)
         ∧ Forall (λ r, r ≠ VNone) l.
Proof.
  revert results st. induction fuel as [|fuel IH]; intros results st Hres Hrun;
    simpl in Hrun;
    destruct (Parser.Repeat__continue at_most results) eqn:Hcont;
    try (injection Hrun as <- <-; by left); [done|].
  unfold bind in Hrun.
  destruct (call st) as [[[r|e] st1]|]; [| done | done].
  destruct (is_None r) eqn:Hnone.
  - destruct (at_least <=? Z.of_nat (length results)) eqn:Hmin;
      injection Hrun as <- <-; [|by left].
    right. exists results. split; [done|]. split; [lia|]. split; [|done].
    intros n ->. simpl in Hcont. lia.
  - apply IH in Hrun; [done|].
    apply Forall_app. split; [done|]. constructor; [|done]. by intros ->.
Qed.

(** Whenever a [Repeat] returns, it is either the no-match outcome with the
    stream as it was, or a list of results, none of them [None], whose
    length is at least [at_least] and, when a maximum is given, at most
    [at_most]: a list longer than the maximum is never returned. *)
Theorem repeat_result_within_bounds (store : gmap pid parser) (fuel : nat)
    (self p : pid) (at_least : Z) (at_most : option Z) (st st' : TokenStream)
    (v : value) :
  store !! self = Some (Repeat p at_least at_most) →
  Parser.call store fuel self st = Some (Ret v, st') →
  (v = VNone ∧ st' = st)
  ∨ ∃ l, v = VList l
         ∧ at_least ≤ Z.of_nat (length l)
         ∧ (∀ n, at_most = Some n → Z.of_nat (length l) ≤ n)
         ∧ Forall (λ r, r ≠ VNone) l.
Proof.
  intros Hnode Hcall.
  assert (v = VNone ∨ v ≠ VNone) as [->|Hv]
    by (destruct v; [by left | by right..]).
  { left. split; [done|]. by eapply no_match_leaves_stream. }
  right. destruct fuel as [|fuel]; [done|].
  cbn [Parser.call] in Hcall. unfold Parser.__call__, Parser._parse in Hcall.
  rewrite Hnode in Hcall.
  unfold bind at 1 in Hcall. unfold save in Hcall. unfold bind at 1 in Hcall.
  destruct (Parser.Repeat__loop (Parser.call store fuel p) at_least at_most fuel [] st)
    as [[[r|e] st1]|] eqn:Hloop; [| done | done].
  apply Repeat__loop_shape in Hloop as [->|(l & -> & Hmin & Hmax & Hall)]; [| |done].
  - simpl in Hcall. unfold bind, load, ret in Hcall. by injection Hcall as <- _.
  - simpl in Hcall. injection Hcall as <- _. by exists l.
Qed.

Lemma repeat_result_within_bounds_witness :
  let st := {| token_list := tokens_a_a; position := 0 |} in
  let l := [VToken (token_at "a a" "a" 0); VToken (token_at "a a" "a" 2)] in
  sample_store !! 4%nat = Some (Repeat 0%nat 0 (Some 2))
  ∧ Parser.call sample_store 4 4%nat st = Some (Ret (VList l), Stream.load st 2)
  ∧ ((VList l = VNone ∧ Stream.load st 2 = st)
     ∨ ∃ l', VList l = VList l'
             ∧ 0 ≤ Z.of_nat (length l')
             ∧ (∀ n, Some 2 = Some n → Z.of_nat (length l') ≤ n)
             ∧ Forall (λ r, r ≠ VNone) l').
Proof.
  intros st l.
  assert (Hnode : sample_store !! 4%nat = Some (Repeat 0%nat 0 (Some 2)))
    by (vm_compute; reflexivity).
  assert (Hcall : Parser.call sample_store 4 4%nat st
                  = Some (Ret (VList l), Stream.load st 2))
    by (vm_compute; reflexivity).
  split; [exact Hnode|]. split; [exact Hcall|].
  exact (repeat_result_within_bounds sample_store 4 4%nat 0%nat 0 (Some 2) st
           (Stream.load st 2) (VList l) Hnode Hcall).
Defined.

Lemma call_S store (fuel : nat) (self : pid) :
  Parser.call store (S fuel) self
  = Parser.__call__ (Parser._parse store (Parser.call store fuel) fuel self).
Proof. reflexivity. Qed.

Lemma Repeat__loop_first_failure (call : M value) (at_least : Z)
    (at_most : option Z) (fuel : nat) (st : TokenStream) :
  Parser.Repeat__continue at_most [] = true →
  call st = Some (Ret VNone, st) →
  Parser.Repeat__loop call at_least at_most (S fuel) [] st
  = Some (Ret (if at_least <=? 0 then VList [] else VNone), st).
Proof.
  intros Hcont Hcall. cbn [Parser.Repeat__loop]. rewrite Hcont.
  unfold bind. rewrite Hcall. done.
Qed.

(** When the child fails at the very first attempt, the repetition has
    collected nothing: it returns the empty list if no result is required
    ([at_least <= 0], as for [ZeroOrMore]) and the no-match outcome
    otherwise (as for [OneOrMore]); the stream is unchanged either way.
    This needs the loop to be entered, which a negative maximum prevents. *)
Theorem repeat_with_no_match (store : gmap pid parser) (fuel : nat)
    (self p : pid) (at_least : Z) (at_most : option Z) (st s : TokenStream) :
  store !! self = Some (Repeat p at_least at_most) →
  Parser.Repeat__continue at_most [] = true →
  Parser.call store (S fuel) p st = Some (Ret VNone, s) →
  Parser.call store (S (S fuel)) self st
  = Some (Ret (if at_least <=? 0 then VList [] else VNone), st).
Proof.
  intros Hnode Hcont Hchild.
  pose proof (no_match_leaves_stream _ _ _ _ _ Hchild) as ->.
  rewrite (call_S store (S fuel) self).
  unfold Parser.__call__, Parser._parse. rewrite Hnode.
  unfold bind at 1. unfold save. unfold bind at 1.
  rewrite (Repeat__loop_first_failure _ at_least at_most fuel st Hcont Hchild).
  destruct (at_least <=? 0); simpl; [done|].
  unfold bind, load, ret, Stream.load, Stream.save. by destruct st.
Qed.

Lemma repeat_with_no_match_witness :
  let st := {| token_list := tokens_a_c; position := 1 |} in
  let store : gmap pid parser :=
    {[ 0%nat := TokenMatching "a"; 1%nat := ZeroOrMore 0%nat;
       2%nat := OneOrMore 0%nat ]} in
  store !! 1%nat = Some (Repeat 0%nat 0 None)
  ∧ Parser.call store 1 0%nat st = Some (Ret VNone, st)
  ∧ Parser.call store 2 1%nat st = Some (Ret (VList []), st)
  ∧ Parser.call store 2 2%nat st = Some (Ret VNone, st).
Proof.
  intros st store.
  assert (Hnode : store !! 1%nat = Some (Repeat 0%nat 0 None))
    by (vm_compute; reflexivity).
  assert (Hchild : Parser.call store 1 0%nat st = Some (Ret VNone, st))
    by (vm_compute; reflexivity).
  split; [exact Hnode|]. split; [exact Hchild|]. split; [|vm_compute; reflexivity].
  exact (repeat_with_no_match store 0 1%nat 0%nat 0 None st st Hnode eq_refl Hchild).
Defined.

Lemma Repeat__loop_unbounded (call : M value) (at_least : Z) (fuel : nat)
    (results : list value) (st st' : TokenStream) (v : value) :
  at_least ≤ Z.of_nat (length results) →
  Parser.Repeat__loop call at_least None fuel results st = Some (Ret v, st') →
  v ≠ VNone.
Proof.
  revert results st. induction fuel as [|fuel IH]; intros results st Hmin Hrun;
    simpl in Hrun; [done|].
  unfold bind in Hrun.
  destruct (call st) as [[[r|e] st1]|]; [| done | done].
  destruct (is_None r).
  - destruct (at_least <=? Z.of_nat (length results)) eqn:Hle; [|lia].
    by injection Hrun as <- _.
  - eapply IH; [|exact Hrun]. rewrite length_app. simpl. lia.
Qed.

(** A repetition with no minimum to reach and no maximum ([ZeroOrMore])
    never returns the no-match outcome: whenever it returns, it returns a
    list. *)
Theorem zero_or_more_never_fails (store : gmap pid parser) (fuel : nat)
    (self p : pid) (at_least : Z) (st st' : TokenStream) (v : value) :
  store !! self = Some (Repeat p at_least None) →
  at_least ≤ 0 →
  Parser.call store fuel self st = Some (Ret v, st') →
  v ≠ VNone.
Proof.
  intros Hnode Hmin Hcall. destruct fuel as [|fuel]; [done|].
  rewrite call_S in Hcall. unfold Parser.__call__, Parser._parse in Hcall.
  rewrite Hnode in Hcall.
  unfold bind at 1 in Hcall. unfold save in Hcall. unfold bind at 1 in Hcall.
  destruct (Parser.Repeat__loop (Parser.call store fuel p) at_least None fuel [] st)
    as [[[r|e] st1]|] eqn:Hloop; [| done | done].
  apply Repeat__loop_unbounded in Hloop; [|simpl; lia].
  destruct r; [done|..]; simpl in Hcall; by injection Hcall as <- _.
Qed.

Lemma zero_or_more_never_fails_witness :
  let st := {| token_list := tokens_a_a; position := 0 |} in
  let store : gmap pid parser :=
    {[ 0%nat := TokenMatching "a"; 1%nat := ZeroOrMore 0%nat ]} in
  let v := VList [VToken (token_at "a a" "a" 0); VToken (token_at "a a" "a" 2)] in
  store !! 1%nat = Some (Repeat 0%nat 0 None)
  ∧ Parser.call store 4 1%nat st = Some (Ret v, Stream.load st 2)
  ∧ v ≠ VNone.
Proof.
  intros st store v.
  assert (Hnode : store !! 1%nat = Some (Repeat 0%nat 0 None))
    by (vm_compute; reflexivity).
  assert (Hcall : Parser.call store 4 1%nat st = Some (Ret v, Stream.load st 2))
    by (vm_compute; reflexivity).
  split; [exact Hnode|]. split; [exact Hcall|].
  exact (zero_or_more_never_fails store 4 1%nat 0%nat 0 st (Stream.load st 2) v
           Hnode ltac:(lia) Hcall).
Defined.

Lemma Repeat__loop_stuck (call : M value) (at_least : Z) (fuel : nat)
    (results : list value) (st : TokenStream) :
  (call st = None ∨ ∃ v, v ≠ VNone ∧ call st = Some (Ret v, st)) →
  Parser.Repeat__loop call at_least None fuel results st = None.
Proof.
  intros Hcall. revert results. induction fuel as [|fuel IH]; intros results;
    simpl; [done|].
  unfold bind. destruct Hcall as [->|(v & Hv & ->)]; [done|].
  destruct v; try done; apply IH.
Qed.

(** An unbounded repetition of a child that succeeds without consuming
    anything never returns: every turn of the loop finds the stream as it
    was and the child succeeding again, so no amount of fuel yields a result
    or an exception. *)
Theorem repeat_of_nonconsuming_child_never_returns (store : gmap pid parser)
    (self p : pid) (at_least : Z) (st : TokenStream) :
  store !! self = Some (Repeat p at_least None) →
  (∀ fuel, Parser.call store fuel p st = None
           ∨ ∃ v, v ≠ VNone ∧ Parser.call store fuel p st = Some (Ret v, st)) →
  ∀ fuel, Parser.call store fuel self st = None.
Proof.
  intros Hnode Hchild [|fuel]; [done|].
  rewrite call_S. unfold Parser.__call__, Parser._parse. rewrite Hnode.
  unfold bind at 1. unfold save. unfold bind at 1.
  by rewrite (Repeat__loop_stuck _ at_least fuel [] st (Hchild fuel)).
Qed.

Lemma repeat_of_nonconsuming_child_never_returns_witness :
  let st := {| token_list := tokens_a_a; position := 0 |} in
  let store : gmap pid parser := {[ 0%nat := And []; 1%nat := ZeroOrMore 0%nat ]} in
  store !! 1%nat = Some (Repeat 0%nat 0 None)
  ∧ Parser.call store 1 0%nat st = Some (Ret (VList []), st)
  ∧ Parser.call store 40 1%nat st = None.
Proof.
  intros st store.
  assert (Hnode : store !! 1%nat = Some (Repeat 0%nat 0 None))
    by (vm_compute; reflexivity).
  assert (Hchild : ∀ fuel, Parser.call store fuel 0%nat st = None
            ∨ ∃ v, v ≠ VNone ∧ Parser.call store fuel 0%nat st = Some (Ret v, st)).
  { intros [|fuel]; [by left|]. right. exists (VList []). split; [done|].
    reflexivity. }
  split; [exact Hnode|]. split; [reflexivity|].
  exact (repeat_of_nonconsuming_child_never_returns store 1%nat 0%nat 0 st
           Hnode Hchild 40%nat).
Defined.

(** *** Result transformation *)

(** [OnFailure] acts on failures only: a success of the child is returned
    untouched, whatever the action is; when the child fails, the result is
    what the action makes of [None], with the stream as it was before the
    child. *)
Theorem on_failure_acts_on_failures_only (store : gmap pid parser) (fuel : nat)
    (self p : pid) (action : value → outcome value) (st : TokenStream) :
  store !! self = Some (OnFailure p action) →
  (∀ v st', Parser.call store fuel p st = Some (Ret v, st') → v ≠ VNone →
     Parser.call store (S fuel) self st = Some (Ret v, st'))
  ∧ (∀ s d, Parser.call store fuel p st = Some (Ret VNone, s) →
       action VNone = Ret d →
       Parser.call store (S fuel) self st = Some (Ret d, st)).
Proof.
  intros Hnode. unfold OnFailure in Hnode. split.
  - intros v st' Hchild Hv.
    rewrite call_S. unfold Parser.__call__, Parser._parse. rewrite Hnode.
    unfold bind, save, lift, load, ret. rewrite Hchild.
    destruct v; done.
  - intros s d Hchild Hact.
    pose proof (no_match_leaves_stream _ _ _ _ _ Hchild) as ->.
    rewrite call_S. unfold Parser.__call__, Parser._parse. rewrite Hnode.
    unfold bind, save, lift, load, ret. rewrite Hchild. simpl. rewrite Hact.
    unfold Stream.load, Stream.save. destruct d, st; done.
Qed.

Lemma on_failure_acts_on_failures_only_witness :
  let st := {| token_list := tokens_a_c; position := 1 |} in
  let action := λ _ : value, Ret (VStr "missing") in
  let store : gmap pid parser :=
    {[ 0%nat := TokenMatching "a"; 1%nat := OnFailure 0%nat action ]} in
  store !! 1%nat = Some (OnFailure 0%nat action)
  ∧ Parser.call store 1 0%nat st = Some (Ret VNone, st)
  ∧ Parser.call store 2 1%nat st = Some (Ret (VStr "missing"), st).
Proof.
  intros st action store.
  assert (Hnode : store !! 1%nat = Some (OnFailure 0%nat action))
    by (vm_compute; reflexivity).
  assert (Hchild : Parser.call store 1 0%nat st = Some (Ret VNone, st))
    by (vm_compute; reflexivity).
  split; [exact Hnode|]. split; [exact Hchild|].
  exact (proj2 (on_failure_acts_on_failures_only store 1 1%nat 0%nat action st Hnode)
           st (VStr "missing") Hchild eq_refl).
Defined.

(** [OnSuccess] acts on successes only: a failure of the child is passed on
    as a failure, whatever the action is (it is not called, so it cannot
    raise either); a success is replaced by what the action returns for it,
    a result other than [None] leaving the stream where the child left it. *)
Theorem on_success_acts_on_successes_only (store : gmap pid parser) (fuel : nat)
    (self p : pid) (action : value → outcome value) (st : TokenStream) :
  store !! self = Some (OnSuccess p action) →
  (∀ s, Parser.call store fuel p st = Some (Ret VNone, s) →
     Parser.call store (S fuel) self st = Some (Ret VNone, st))
  ∧ (∀ v st' w, Parser.call store fuel p st = Some (Ret v, st') → v ≠ VNone →
       action v = Ret w → w ≠ VNone →
       Parser.call store (S fuel) self st = Some (Ret w, st')).
Proof.
  intros Hnode. unfold OnSuccess in Hnode. split.
  - intros s Hchild.
    pose proof (no_match_leaves_stream _ _ _ _ _ Hchild) as ->.
    rewrite call_S. unfold Parser.__call__, Parser._parse. rewrite Hnode.
    unfold bind, save, lift, load, ret. rewrite Hchild. simpl.
    unfold Stream.load, Stream.save. by destruct st.
  - intros v st' w Hchild Hv Hact Hw.
    rewrite call_S. unfold Parser.__call__, Parser._parse. rewrite Hnode.
    unfold bind, save, lift, load, ret. rewrite Hchild.
    destruct v; [done|..]; simpl; rewrite Hact; by destruct w.
Qed.

Lemma on_success_acts_on_successes_only_witness :
  let st := {| token_list := tokens_a_c; position := 1 |} in
  let action := λ _ : value, Raise (UserError "boom") in
  let store : gmap pid parser :=
    {[ 0%nat := TokenMatching "a"; 1%nat := OnSuccess 0%nat action ]} in
  store !! 1%nat = Some (OnSuccess 0%nat action)
  ∧ Parser.call store 1 0%nat st = Some (Ret VNone, st)
  ∧ Parser.call store 2 1%nat st = Some (Ret VNone, st).
Proof.
  intros st action store.
  assert (Hnode : store !! 1%nat = Some (OnSuccess 0%nat action))
    by (vm_compute; reflexivity).
  assert (Hchild : Parser.call store 1 0%nat st = Some (Ret VNone, st))
    by (vm_compute; reflexivity).
  split; [exact Hnode|]. split; [exact Hchild|].
  exact (proj1 (on_success_acts_on_successes_only store 1 1%nat 0%nat action st Hnode)
           st Hchild).
Defined.

(** [Action] applies its function to whatever the child returned, [None]
    included, and the stream is left where the child left it unless the
    function returns [None], in which case it is put back. *)
Theorem action_applies_to_every_result (store : gmap pid parser) (fuel : nat)
    (self p : pid) (action : value → outcome value) (st st' : TokenStream)
    (v w : value) :
  store !! self = Some (Action p action) →
  Parser.call store fuel p st = Some (Ret v, st') →
  action v = Ret w →
  Parser.call store (S fuel) self st
  = Some (Ret w, if is_None w then st else st').
Proof.
  intros Hnode Hchild Hact.
  pose proof (keeps_call store fuel p st _ _ Hchild) as Htokens.
  rewrite call_S. unfold Parser.__call__, Parser._parse. rewrite Hnode.
  unfold bind, save, lift, load, ret. rewrite Hchild, Hact.
  destruct (is_None w); [|done]. simpl.
  unfold Stream.load, Stream.save. destruct st. simpl in *. by rewrite Htokens.
Qed.

Lemma action_applies_to_every_result_witness :
  let st := {| token_list := tokens_a_c; position := 1 |} in
  let action := λ v : value, Ret (VList [v]) in
  let store : gmap pid parser :=
    {[ 0%nat := TokenMatching "a"; 1%nat := Action 0%nat action ]} in
  store !! 1%nat = Some (Action 0%nat action)
  ∧ Parser.call store 1 0%nat st = Some (Ret VNone, st)
  ∧ Parser.call store 2 1%nat st = Some (Ret (VList [VNone]), st).
Proof.
  intros st action store.
  assert (Hnode : store !! 1%nat = Some (Action 0%nat action))
    by (vm_compute; reflexivity).
  assert (Hchild : Parser.call store 1 0%nat st = Some (Ret VNone, st))
    by (vm_compute; reflexivity).
  split; [exact Hnode|]. split; [exact Hchild|].
  exact (action_applies_to_every_result store 1 1%nat 0%nat action st st VNone
           (VList [VNone]) Hnode Hchild eq_refl).
Defined.

(** ** Parser engine: where the cursor can go *)

Lemma forward_ret {A} (a : A) : moves_forward (ret a).
Proof. intros st o st' [= <- <-]. done. Qed.

Lemma forward_lift {A} (o : outcome A) : moves_forward (lift o).
Proof. intros st o' st' [= <- <-]. done. Qed.

Lemma forward_diverge {A} : moves_forward (@diverge A).
Proof. intros st o st' [=]. Qed.

Lemma forward_peek : moves_forward peek.
Proof. intros st o st' [= <- <-]. done. Qed.

Lemma forward_save : moves_forward save.
Proof. intros st o st' [= <- <-]. done. Qed.

Lemma forward_next : moves_forward next.
Proof. intros st o st' [= <- <-]. simpl. lia. Qed.

Lemma forward_bind {A B} (m : M A) (k : A → M B) :
  moves_forward m → (∀ a, moves_forward (k a)) → moves_forward (bind m k).
Proof.
  intros Hm Hk st o st' Hrun. unfold bind in Hrun.
  destruct (m st) as [[[a|e] st1]|] eqn:Hmst; [| |done].
  - etrans; [by eapply Hm | by eapply Hk].
  - injection Hrun as <- <-. by eapply Hm.
Qed.

Create HintDb forward.
#[local] Hint Resolve forward_ret forward_lift forward_diverge forward_peek
  forward_save forward_next : forward.

Ltac forward_step :=
  repeat first
    [ apply forward_bind; [|intros ?]
    | match goal with |- moves_forward (if ?b then _ else _) => destruct b end
    | solve [auto with forward] ].

Lemma forward___call__ (parse : M value) :
  moves_forward parse → moves_forward (Parser.__call__ parse).
Proof.
  intros Hparse st o st' Hrun.
  unfold Parser.__call__, bind, save, load, ret in Hrun.
  destruct (parse st) as [[[v|e] st1]|] eqn:Hp; [| |done].
  - destruct (is_None v); injection Hrun as <- <-; [done|]. by eapply Hparse.
  - injection Hrun as <- <-. by eapply Hparse.
Qed.

Lemma forward_TokenSatisfying__parse condition :
  moves_forward (Parser.TokenSatisfying__parse condition).
Proof. unfold Parser.TokenSatisfying__parse. forward_step. Qed.

Lemma forward_Or__parse (call : pid → M value) (children : list pid) :
  (∀ p, moves_forward (call p)) → moves_forward (Parser.Or__parse call children).
Proof.
  intros Hcall. induction children as [|p rest IH]; simpl; forward_step.
Qed.

Lemma forward_And__loop (call : pid → M value) (children : list pid)
    (results : list value) :
  (∀ p, moves_forward (call p)) →
  moves_forward (Parser.And__loop call children results).
Proof.
  intros Hcall. revert results.
  induction children as [|p rest IH]; intros results; simpl; forward_step.
Qed.

Lemma forward_Repeat__loop (call : M value) (at_least : Z) (at_most : option Z)
    (fuel : nat) (results : list value) :
  moves_forward call →
  moves_forward (Parser.Repeat__loop call at_least at_most fuel results).
Proof.
  intros Hcall. revert results.
  induction fuel as [|fuel IH]; intros results; simpl; forward_step.
Qed.

Lemma forward__parse store (call : pid → M value) (fuel : nat) (self : pid) :
  (∀ p, moves_forward (call p)) →
  moves_forward (Parser._parse store call fuel self).
Proof.
  intros Hcall. unfold Parser._parse.
  destruct (store !! self) as [[| | | | [p|] | | |]|];
    auto using forward_TokenSatisfying__parse, forward_Or__parse,
      forward_Repeat__loop with forward.
  - forward_step.
  - by apply forward_And__loop.
Qed.

Lemma forward_call store (fuel : nat) (self : pid) :
  moves_forward (Parser.call store fuel self).
Proof.
  revert self. induction fuel as [|fuel IH]; intros self.
  - apply forward_diverge.
  - rewrite call_S. by apply forward___call__, forward__parse.
Qed.

(** Whatever the grammar and whatever the outcome (a result, the no-match
    outcome or an exception), an invocation never leaves the cursor before
    the position it started from. *)
Theorem call_never_moves_cursor_back (store : gmap pid parser) (fuel : nat)
    (self : pid) (st st' : TokenStream) (o : outcome value) :
  Parser.call store fuel self st = Some (o, st') →
  position st ≤ position st'.
Proof. apply forward_call. Qed.

Lemma call_never_moves_cursor_back_witness :
  let st := {| token_list := tokens_a_a; position := 3 |} in
  let store : gmap pid parser := {[ 0%nat := TokenMatching "" ]} in
  Parser.call store 1 0%nat st = Some (Raise IndexError, Stream.load st 4)
  ∧ position st ≤ position (Stream.load st 4).
Proof.
  intros st store.
  assert (Hcall : Parser.call store 1 0%nat st
                  = Some (Raise IndexError, Stream.load st 4))
    by (vm_compute; reflexivity).
  split; [exact Hcall|].
  exact (call_never_moves_cursor_back store 1 0%nat st (Stream.load st 4)
           (Raise IndexError) Hcall).
Defined.

Lemma py_getitem_ret_in_range {A} (l : list A) (i : Z) (x : A) :
  0 ≤ i → py_getitem l i = Ret x → i < Z.of_nat (length l).
Proof.
  intros Hi. unfold py_getitem.
  destruct (i <? 0) eqn:Hneg; [lia|].
  destruct (i <? Z.of_nat (length l)) eqn:Hlt; [lia|].
  by rewrite andb_false_r.
Qed.

Lemma bounds_ret {A} (a : A) : stays_in_bounds (ret a).
Proof. intros st a' st' Hb [= <- <-]. done. Qed.

Lemma bounds_lift {A} (o : outcome A) : stays_in_bounds (lift o).
Proof. intros st a st' Hb [= _ <-]. done. Qed.

Lemma bounds_diverge {A} : stays_in_bounds (@diverge A).
Proof. intros st a st' Hb [=]. Qed.

Lemma bounds_peek : stays_in_bounds peek.
Proof. intros st a st' Hb [= _ <-]. done. Qed.

Lemma bounds_save : stays_in_bounds save.
Proof. intros st a st' Hb [= _ <-]. done. Qed.

Lemma bounds_next : stays_in_bounds next.
Proof.
  intros st a st' [Hlo Hhi] Hrun. unfold next in Hrun.
  injection Hrun as Hget <-. unfold in_bounds. simpl in *.
  apply py_getitem_ret_in_range in Hget; lia.
Qed.

Lemma bounds_bind {A B} (m : M A) (k : A → M B) :
  stays_in_bounds m → (∀ a, stays_in_bounds (k a)) → stays_in_bounds (bind m k).
Proof.
  intros Hm Hk st b st' Hb Hrun. unfold bind in Hrun.
  destruct (m st) as [[[a|e] st1]|] eqn:Hmst; [|done|done].
  eapply Hk; [|exact Hrun]. by eapply Hm.
Qed.

Create HintDb bounds.
#[local] Hint Resolve bounds_ret bounds_lift bounds_diverge bounds_peek
  bounds_save bounds_next : bounds.

Ltac bounds_step :=
  repeat first
    [ apply bounds_bind; [|intros ?]
    | match goal with |- stays_in_bounds (if ?b then _ else _) => destruct b end
    | solve [auto with bounds] ].

Lemma bounds___call__ (parse : M value) :
  keeps_tokens parse → stays_in_bounds parse →
  stays_in_bounds (Parser.__call__ parse).
Proof.
  intros Hkeeps Hparse st a st' Hb Hrun.
  unfold Parser.__call__, bind, save, load, ret in Hrun.
  destruct (parse st) as [[[v|e] st1]|] eqn:Hp; [|done|done].
  destruct (is_None v); injection Hrun as <- <-; [|by eapply Hparse].
  unfold in_bounds, Stream.load, Stream.save in *. simpl.
  by rewrite (Hkeeps _ _ _ Hp).
Qed.

Lemma bounds_TokenSatisfying__parse condition :
  stays_in_bounds (Parser.TokenSatisfying__parse condition).
Proof. unfold Parser.TokenSatisfying__parse. bounds_step. Qed.

Lemma bounds_Or__parse (call : pid → M value) (children : list pid) :
  (∀ p, stays_in_bounds (call p)) →
  stays_in_bounds (Parser.Or__parse call children).
Proof.
  intros Hcall. induction children as [|p rest IH]; simpl; bounds_step.
Qed.

Lemma bounds_And__loop (call : pid → M value) (children : list pid)
    (results : list value) :
  (∀ p, stays_in_bounds (call p)) →
  stays_in_bounds (Parser.And__loop call children results).
Proof.
  intros Hcall. revert results.
  induction children as [|p rest IH]; intros results; simpl; bounds_step.
Qed.

Lemma bounds_Repeat__loop (call : M value) (at_least : Z) (at_most : option Z)
    (fuel : nat) (results : list value) :
  stays_in_bounds call →
  stays_in_bounds (Parser.Repeat__loop call at_least at_most fuel results).
Proof.
  intros Hcall. revert results.
  induction fuel as [|fuel IH]; intros results; simpl; bounds_step.
Qed.

Lemma bounds__parse store (call : pid → M value) (fuel : nat) (self : pid) :
  (∀ p, stays_in_bounds (call p)) →
  stays_in_bounds (Parser._parse store call fuel self).
Proof.
  intros Hcall. unfold Parser._parse.
  destruct (store !! self) as [[| | | | [p|] | | |]|];
    auto using bounds_TokenSatisfying__parse, bounds_Or__parse,
      bounds_Repeat__loop with bounds.
  - bounds_step.
  - by apply bounds_And__loop.
Qed.

Lemma bounds_call store (fuel : nat) (self : pid) :
  stays_in_bounds (Parser.call store fuel self).
Proof.
  revert self. induction fuel as [|fuel IH]; intros self.
  - apply bounds_diverge.
  - rewrite call_S. apply bounds___call__.
    + apply keeps__parse. intros p. apply keeps_call.
    + by apply bounds__parse.
Qed.

(** An invocation that starts with the cursor inside the token list (or just
    past its end) and returns, with a result or with the no-match outcome,
    leaves the cursor between where it started and the end of the list: a
    parser that returns has consumed only tokens that exist. *)
Theorem returned_call_stays_in_bounds (store : gmap pid parser) (fuel : nat)
    (self : pid) (st st' : TokenStream) (v : value) :
  in_bounds st →
  Parser.call store fuel self st = Some (Ret v, st') →
  position st ≤ position st' ≤ Z.of_nat (length (token_list st)).
Proof.
  intros Hb Hcall.
  pose proof (bounds_call store fuel self st v st' Hb Hcall) as [_ Hhi].
  rewrite (keeps_call store fuel self st _ _ Hcall) in Hhi.
  split; [|done]. by eapply forward_call.
Qed.

Lemma returned_call_stays_in_bounds_witness :
  let st := {| token_list := tokens_a_a; position := 0 |} in
  let store : gmap pid parser :=
    {[ 0%nat := TokenSatisfying (λ _, Ret true); 1%nat := ZeroOrMore 0%nat ]} in
  in_bounds st
  ∧ Parser.call store 2 1%nat st = None
  ∧ Parser.call store 1 0%nat st
    = Some (Ret (VToken (token_at "a a" "a" 0)), Stream.load st 1)
  ∧ position st ≤ position (Stream.load st 1) ≤ Z.of_nat (length (token_list st)).
Proof.
  intros st store.
  assert (Hb : in_bounds st) by (vm_compute; split; discriminate).
  assert (Hcall : Parser.call store 1 0%nat st
            = Some (Ret (VToken (token_at "a a" "a" 0)), Stream.load st 1))
    by (vm_compute; reflexivity).
  split; [exact Hb|]. split; [vm_compute; reflexivity|]. split; [exact Hcall|].
  exact (returned_call_stays_in_bounds store 1 0%nat st (Stream.load st 1) _ Hb Hcall).
Defined.

(** ** Grammar introspection and the entry point *)

(** For every grammar, cyclic or not, the literals that [parse_string]
    collects are those of the root object alone: its keyword if the root is
    a [Keyword], its symbol if it is a [Symbol], and nothing otherwise. *)
Theorem literals_are_those_of_the_root (store : gmap pid parser) (fuel : nat)
    (self : pid) (node : parser) :
  store !! self = Some node →
  Parser.literals store (S (S fuel)) self
  = Some (match node with Keyword keyword => {[keyword]} | _ => ∅ end,
          match node with Symbol symbol => {[symbol]} | _ => ∅ end).
Proof.
  intros Hnode. unfold Parser.literals.
  rewrite (descendants_only_self store fuel self node ∅ Hnode) by set_solver.
  rewrite (left_id_L ∅ (∪)), elements_singleton. simpl.
  unfold Parser.keyword_of, Parser.symbol_of. rewrite Hnode.
  destruct node as [| | | | [?|] | | |]; simpl;
    rewrite ?(right_id_L ∅ (∪)); reflexivity.
Qed.

Lemma literals_are_those_of_the_root_witness :
  let store : gmap pid parser :=
    {[ 0%nat := Keyword "if"; 1%nat := Symbol "("; 2%nat := Or [0%nat; 1%nat] ]} in
  store !! 0%nat = Some (Keyword "if")
  ∧ Parser.literals store 2 0%nat = Some ({["if"]}, ∅)
  ∧ Parser.literals store 2 2%nat = Some (∅, ∅).
Proof.
  intros store.
  assert (Hnode : store !! 0%nat = Some (Keyword "if")) by (vm_compute; reflexivity).
  split; [exact Hnode|]. split; [|vm_compute; reflexivity].
  exact (literals_are_those_of_the_root store 0 0%nat (Keyword "if") Hnode).
Defined.

Lemma parse_string_raises_witness :
  if_store !! 0%nat = Some (And [1%nat; 2%nat])
  ∧ Parser.parse_string if_store 2 0%nat "if (" = Some (Raise NameError)
  ∧ ∃ e, Parser.parse_string if_store 2 0%nat "if (" = Some (Raise e).
Proof.
  assert (Hnode : if_store !! 0%nat = Some (And [1%nat; 2%nat]))
    by (vm_compute; reflexivity).
  split; [exact Hnode|]. split; [vm_compute; reflexivity|].
  exact (parse_string_raises if_store 0 0%nat _ "if (" Hnode).
Defined.

(** ** Tokenizer patterns *)

(** The symbol pattern depends on the set of symbols only, not on the order
    in which the set yields them. *)
Theorem symbol_pattern_ignores_set_order (symbols1 symbols2 : list string) :
  symbols1 ≡ₚ symbols2 →
  Lexer.symbol_order symbols1 = Lexer.symbol_order symbols2
  ∧ Lexer.symbol_regex symbols1 = Lexer.symbol_regex symbols2.
Proof.
  intros Hperm.
  assert (Horder : Lexer.symbol_order symbols1 = Lexer.symbol_order symbols2).
  { unfold Lexer.symbol_order. f_equal.
    apply (Sorted_unique String.le).
    - apply Sorted_merge_sort. apply _.
    - apply Sorted_merge_sort. apply _.
    - by rewrite !merge_sort_Permutation. }
  split; [done|]. unfold Lexer.symbol_regex. by rewrite Horder.
Qed.

Lemma symbol_pattern_ignores_set_order_witness :
  ["="; "+"; "=="] ≡ₚ ["+"; "=="; "="]
  ∧ Lexer.symbol_order ["="; "+"; "=="] = ["=="; "="; "+"]
  ∧ Lexer.symbol_order ["="; "+"; "=="] = Lexer.symbol_order ["+"; "=="; "="].
Proof.
  assert (Hperm : ["="; "+"; "=="] ≡ₚ ["+"; "=="; "="])
    by exact (Permutation_app_comm ["="] ["+"; "=="]).
  split; [exact Hperm|]. split; [vm_compute; reflexivity|].
  exact (proj1 (symbol_pattern_ignores_set_order _ _ Hperm)).
Defined.

Lemma match__eps (string_ : string) (i : Z) :
  0 ≤ i ≤ PyStr.len string_ →
  Re.match_ Re.Eps string_ i
  = Some {| Re.m_start := i; Re.m_end := i; Re.m_group := "" |}.
Proof.
  intros Hi. unfold Re.match_. cbn [Re.run].
  rewrite Z.min_l, Z.max_r by lia. f_equal.
  assert (Hend : PyStr.len string_
                 - Z.of_nat (length (drop (Z.to_nat i) (PyStr.chars string_))) = i).
  { rewrite length_drop. unfold PyStr.len in *. lia. }
  rewrite Hend. f_equal.
  unfold PyStr.slice, PyStr.window, PyStr.slice_index.
  destruct (i <? 0) eqn:Hneg; [lia|].
  by rewrite Z.sub_diag.
Qed.

(** With no keyword in the grammar the keyword pattern is the empty
    pattern, and likewise the symbol pattern with no symbol: at every offset
    of every text it matches, and what it matches is the empty text. *)
Theorem empty_literal_set_matches_empty_text (string_ : string) (i : Z) :
  0 ≤ i ≤ PyStr.len string_ →
  Re.match_ (Lexer.keyword_regex []) string_ i
  = Some {| Re.m_start := i; Re.m_end := i; Re.m_group := "" |}
  ∧ Re.match_ (Lexer.symbol_regex []) string_ i
    = Some {| Re.m_start := i; Re.m_end := i; Re.m_group := "" |}.
Proof.
  intros Hi. split; by apply match__eps.
Qed.

Lemma empty_literal_set_matches_empty_text_witness :
  0 ≤ 2 ≤ PyStr.len "x = 1"
  ∧ Re.match_ (Lexer.keyword_regex []) "x = 1" 2
    = Some {| Re.m_start := 2; Re.m_end := 2; Re.m_group := "" |}
  ∧ Re.match_ (Lexer.keyword_regex ["if"]) "x = 1" 2 = None.
Proof.
  assert (H : 0 ≤ 2 ≤ PyStr.len "x = 1") by (vm_compute; split; discriminate).
  split; [exact H|]. split; [|vm_compute; reflexivity].
  exact (proj1 (empty_literal_set_matches_empty_text "x = 1" 2 H)).
Defined.

(** A greedy repetition of a character class takes characters of the class
    only; the rest of the pattern continues on what is left. *)
Lemma star_class_spec (p : ascii → bool) (n m : nat) (inp rest : list ascii)
    (k : list ascii → option (list ascii)) :
  Re.star_loop (Re.run (Re.Cls p) n) m inp k = Some rest →
  ∃ pre mid, inp = pre ++ mid ∧ Forall (λ c, p c = true) pre ∧ k mid = Some rest.
Proof.
  revert inp. induction m as [|m IH]; intros inp Hrun; simpl in Hrun.
  - exists [], inp. by repeat split.
  - match type of Hrun with
    | match ?body with _ => _ end = _ => destruct body as [r|] eqn:Hbody
    end.
    + injection Hrun as ->.
      destruct inp as [|c inp']; [done|].
      destruct (p c) eqn:Hc; [|done].
      destruct (Nat.ltb (length inp') (length (c :: inp'))); [|done].
      destruct (IH _ Hbody) as (pre & mid & -> & Hpre & Hk).
      exists (c :: pre), mid. repeat split; [|done]. by constructor.
    + exists [], inp. by repeat split.
Qed.

Lemma run_int_regex (n : nat) (inp rest : list ascii) :
  Re.run Lexer.int_regex n inp Some = Some rest →
  ∃ digits, inp = digits ++ rest ∧ digits ≠ []
            ∧ Forall (λ c, Re.digit c = true) digits
            ∧ ¬ PyStr.chars "." `prefix_of` rest.
Proof.
  unfold Lexer.int_regex, Re.Plus. cbn [Re.run]. intros Hrun.
  destruct inp as [|c inp']; [done|].
  destruct (Re.digit c) eqn:Hc; [|done].
  apply (star_class_spec Re.digit 0%nat) in Hrun as (pre & mid & -> & Hpre & Hk).
  destruct (Re.strip (PyStr.chars ".") mid) as [x|] eqn:Hdot; [done|].
  injection Hk as <-.
  exists (c :: pre). split_and!.
  - done.
  - done.
  - by constructor.
  - by apply strip_none.
Qed.

(** What the integer pattern matches, when it matches: a run of one or more
    digits whose next character is not a dot.  (The run need not be the
    whole run of digits of the text.) *)
Theorem int_pattern_matches_digits_not_before_dot (string_ : string) (i : Z)
    (m : Re.Match) :
  Re.match_ Lexer.int_regex string_ i = Some m →
  Re.m_group m ≠ ""
  ∧ Forall (λ c, Re.digit c = true) (PyStr.chars (Re.m_group m))
  ∧ occurs_at (Re.m_group m) string_ (Re.m_start m)
  ∧ Re.m_end m = Re.m_start m + PyStr.len (Re.m_group m)
  ∧ PyStr.chars string_ !! Z.to_nat (Re.m_end m) ≠ Some "."%char.
Proof.
  intros Hm. unfold Re.match_ in Hm.
  set (n := PyStr.len string_) in *.
  set (i' := Z.max 0 (Z.min i n)) in *.
  set (inp := drop (Z.to_nat i') (PyStr.chars string_)) in *.
  destruct (Re.run Lexer.int_regex (length inp) inp Some) as [rest|] eqn:Hrun;
    [|done].
  injection Hm as <-. simpl.
  apply run_int_regex in Hrun as (digits & Hinp & Hne & Hdigits & Hdot).
  assert (Hi' : 0 ≤ i' ≤ n) by (unfold i', n, PyStr.len; lia).
  assert (Hchars : PyStr.chars (PyStr.of_chars digits) = digits)
    by apply list_ascii_of_string_of_list_ascii.
  assert (Hinp' : inp = PyStr.chars (PyStr.of_chars digits) ++ rest)
    by (by rewrite Hchars).
  destruct (slice_of_occurrence string_ (PyStr.of_chars digits) i' rest Hi' Hinp')
    as [Hend Hgroup].
  fold n in Hend. rewrite Hend, Hgroup, Hchars. split_and!.
  - intros Hempty. apply Hne. by rewrite <- Hchars, Hempty.
  - done.
  - exists rest. by rewrite Hchars.
  - done.
  - intros Hnext. apply Hdot.
    assert (Hlook : inp !! length digits = Some "."%char).
    { unfold inp. rewrite lookup_drop. rewrite <- Hnext. f_equal.
      unfold PyStr.len. rewrite Hchars. lia. }
    rewrite Hinp, lookup_app_r in Hlook by lia.
    rewrite Nat.sub_diag in Hlook. destruct rest as [|c rest']; [done|].
    simpl in Hlook. injection Hlook as ->. by exists rest'.
Qed.

Lemma int_pattern_matches_digits_not_before_dot_witness :
  let m := {| Re.m_start := 2; Re.m_end := 4; Re.m_group := "12" |} in
  Re.match_ Lexer.int_regex "x 12" 2 = Some m
  ∧ Forall (λ c, Re.digit c = true) (PyStr.chars (Re.m_group m))
  ∧ PyStr.chars "x 12" !! Z.to_nat (Re.m_end m) ≠ Some "."%char.
Proof.
  intros m.
  assert (Hm : Re.match_ Lexer.int_regex "x 12" 2 = Some m)
    by (vm_compute; reflexivity).
  pose proof (int_pattern_matches_digits_not_before_dot "x 12" 2 m Hm)
    as (_ & Hdigits & _ & _ & Hnext).
  split; [exact Hm|]. split; [exact Hdigits | exact Hnext].
Defined.

Lemma run_keyword (keyword : string) (n : nat) (inp rest : list ascii) :
  Re.run (Re.Seq (Re.Lit keyword) (Re.NotAhead (Re.Cls Re.word))) n inp Some
  = Some rest →
  inp = PyStr.chars keyword ++ rest
  ∧ ∀ c, rest !! 0%nat = Some c → Re.word c = false.
Proof.
  cbn [Re.run]. intros Hrun.
  destruct (Re.strip (PyStr.chars keyword) inp) as [inp'|] eqn:Hstrip; [|done].
  apply strip_spec in Hstrip as ->.
  destruct inp' as [|c inp''].
  - injection Hrun as <-. split; [done|]. by intros c.
  - destruct (Re.word c) eqn:Hc; [done|].
    injection Hrun as <-. split; [done|]. by intros c' [= <-].
Qed.

Lemma alt_keywords_first (l : list string) (n : nat) (inp rest : list ascii) :
  l ≠ [] →
  Re.run (Lexer.keyword_regex l) n inp Some = Some rest →
  ∃ keyword, keyword ∈ l
    ∧ inp = PyStr.chars keyword ++ rest
    ∧ ∀ c, rest !! 0%nat = Some c → Re.word c = false.
Proof.
  unfold Lexer.keyword_regex.
  induction l as [|a l IH]; [done|]. intros _ Hrun.
  destruct l as [|b l].
  - apply run_keyword in Hrun as [Hinp Hnext]. exists a. split; [by left | done].
  - set (pat := λ keyword : string,
                  Re.Seq (Re.Lit keyword) (Re.NotAhead (Re.Cls Re.word))) in *.
    change (match Re.run (pat a) n inp Some with
            | Some r => Some r
            | None => Re.run (Re.join_alt (pat <$> b :: l)) n inp Some
            end = Some rest) in Hrun.
    match type of Hrun with
    | match ?first with _ => _ end = _ => destruct first as [r|] eqn:Hfirst
    end.
    + injection Hrun as ->.
      apply (run_keyword a n) in Hfirst as [Hinp Hnext].
      exists a. split; [by left | done].
    + destruct (IH ltac:(done) Hrun) as (kw & Hin & Hinp & Hnext).
      exists kw. split; [by right | done].
Qed.

(** The pattern of plain keywords matches whole words only: what it matches
    is one of the keywords, occurring at that offset, and the character after
    it, if there is one, is not a word character. *)
Theorem keyword_pattern_matches_whole_words (keywords : list string)
    (string_ : string) (i : Z) (m : Re.Match) :
  keywords ≠ [] →
  Forall (λ keyword, Lexer.plain keyword = true) keywords →
  Re.match_ (Lexer.keyword_regex keywords) string_ i = Some m →
  Re.m_group m ∈ keywords
  ∧ occurs_at (Re.m_group m) string_ (Re.m_start m)
  ∧ Re.m_end m = Re.m_start m + PyStr.len (Re.m_group m)
  ∧ ∀ c, PyStr.chars string_ !! Z.to_nat (Re.m_end m) = Some c → Re.word c = false.
Proof.
  intros Hne _ Hm. unfold Re.match_ in Hm.
  set (n := PyStr.len string_) in *.
  set (i' := Z.max 0 (Z.min i n)) in *.
  set (inp := drop (Z.to_nat i') (PyStr.chars string_)) in *.
  destruct (Re.run (Lexer.keyword_regex keywords) (length inp) inp Some)
    as [rest|] eqn:Hrun; [|done].
  injection Hm as <-. simpl.
  apply alt_keywords_first in Hrun as (kw & Hin & Hinp & Hnext); [|done].
  assert (Hi' : 0 ≤ i' ≤ n) by (unfold i', n, PyStr.len; lia).
  destruct (slice_of_occurrence string_ kw i' rest Hi' Hinp) as [Hend Hgroup].
  fold n in Hend. rewrite Hend, Hgroup. split_and!; [done | by exists rest | done |].
  intros c Hc. apply Hnext. rewrite <- Hc.
  assert (Hlook : inp !! length (PyStr.chars kw) = rest !! 0%nat).
  { rewrite Hinp, lookup_app_r by lia. by rewrite Nat.sub_diag. }
  rewrite <- Hlook. unfold inp. rewrite lookup_drop. f_equal.
  unfold PyStr.len. lia.
Qed.

Lemma keyword_pattern_matches_whole_words_witness :
  let m := {| Re.m_start := 5; Re.m_end := 7; Re.m_group := "if" |} in
  ["else"; "if"] ≠ []
  ∧ Forall (λ keyword, Lexer.plain keyword = true) ["else"; "if"]
  ∧ Re.match_ (Lexer.keyword_regex ["else"; "if"]) "iffy if x" 5 = Some m
  ∧ Re.match_ (Lexer.keyword_regex ["else"; "if"]) "iffy if x" 0 = None
  ∧ Re.m_group m ∈ ["else"; "if"].
Proof.
  intros m.
  assert (Hne : ["else"; "if"] ≠ ([] : list string)) by discriminate.
  assert (Hplain : Forall (λ keyword, Lexer.plain keyword = true) ["else"; "if"])
    by (repeat constructor).
  assert (Hm : Re.match_ (Lexer.keyword_regex ["else"; "if"]) "iffy if x" 5 = Some m)
    by (vm_compute; reflexivity).
  split; [exact Hne|]. split; [exact Hplain|]. split; [exact Hm|].
  split; [vm_compute; reflexivity|].
  exact (proj1 (keyword_pattern_matches_whole_words ["else"; "if"] "iffy if x" 5 m
                  Hne Hplain Hm)).
Defined.

(** The symbol literals are combined in reverse lexicographic order, which
    puts a literal before each of its proper prefixes.  So when the symbol
    pattern matches at an offset, the text it matches is a literal of the
    symbol set occurring there, and no literal of the set occurring at that
    offset is longer.  With the literals [=] and [==], the pattern matches the
    whole of the text [==]. *)
Theorem symbol_pattern_prefers_longest (symbols : list string) (string_ : string)
    (i : Z) (m : Re.Match) :
  symbols ≠ [] →
  Re.match_ (Lexer.symbol_regex symbols) string_ i = Some m →
  reverse_lexicographic (Lexer.symbol_order symbols)
  ∧ Re.m_group m ∈ symbols
  ∧ occurs_at (Re.m_group m) string_ (Re.m_start m)
  ∧ Re.m_end m = Re.m_start m + PyStr.len (Re.m_group m)
  ∧ (∀ symbol, symbol ∈ symbols → occurs_at symbol string_ (Re.m_start m) →
       PyStr.len symbol ≤ PyStr.len (Re.m_group m))
  ∧ Re.match_ (Lexer.symbol_regex ["="; "=="]) "==" 0
    = Some {| Re.m_start := 0; Re.m_end := 2; Re.m_group := "==" |}.
Proof.
  intros Hne Hm. split; [apply symbol_order_reverse_lexicographic|].
  destruct (symbol_match_longest symbols string_ i m Hne Hm)
    as (Hin & Hocc & Hend & Hlong).
  split_and!; [done..|]. vm_compute. reflexivity.
Qed.

Lemma symbol_pattern_prefers_longest_witness :
  let m := {| Re.m_start := 0; Re.m_end := 2; Re.m_group := "==" |} in
  ["="; "=="] ≠ []
  ∧ Re.match_ (Lexer.symbol_regex ["="; "=="]) "==" 0 = Some m
  ∧ Re.m_group m ∈ ["="; "=="]
  ∧ (∀ symbol, symbol ∈ ["="; "=="] → occurs_at symbol "==" 0 →
       PyStr.len symbol ≤ 2).
Proof.
  intros m.
  assert (Hne : ["="; "=="] ≠ ([] : list string)) by discriminate.
  assert (Hm : Re.match_ (Lexer.symbol_regex ["="; "=="]) "==" 0 = Some m)
    by (vm_compute; reflexivity).
  pose proof (symbol_pattern_prefers_longest ["="; "=="] "==" 0 m Hne Hm)
    as (_ & Hin & _ & _ & Hlong & _).
  split; [exact Hne|]. split; [exact Hm|]. split; [exact Hin|]. exact Hlong.
Defined.
